(** * supersonic/base/infrastructure/hasher.h: the CityHash64 tiers and the
      Murmur helpers, as a shallow embedding.

    Unsigned 64-bit and 32-bit values are integers of [Z] with the
    wrap-around of every operation written out.  A pointer is an address
    of [Z]; memory is a total map from addresses to bytes; a function
    that reads memory is a computation that returns its value together
    with the list of the addresses it read, in program order. *)

From Stdlib Require Import ZArith List Lia Bool FinFun Permutation.
From Stdlib Require Import Strings.Byte.
From Equations Require Import Equations.
Import ListNotations.
Local Open Scope Z_scope.

(** ** Fixed-width arithmetic *)

Definition wrap64 (z : Z) : Z := z mod 2 ^ 64.
Definition wrap32 (z : Z) : Z := z mod 2 ^ 32.

Definition add64 (a b : Z) : Z := wrap64 (a + b).
Definition sub64 (a b : Z) : Z := wrap64 (a - b).
Definition mul64 (a b : Z) : Z := wrap64 (a * b).
Definition shl64 (a n : Z) : Z := wrap64 (Z.shiftl a n).
Definition shr64 (a n : Z) : Z := Z.shiftr a n.
Definition add32 (a b : Z) : Z := wrap32 (a + b).
Definition shl32 (a n : Z) : Z := wrap32 (Z.shiftl a n).

Declare Scope u64_scope.
Delimit Scope u64_scope with u64.
Infix "+%" := add64 (at level 50, left associativity) : u64_scope.
Infix "*%" := mul64 (at level 40, left associativity) : u64_scope.
Infix "<<%" := shl64 (at level 52, left associativity) : u64_scope.
Infix ">>%" := shr64 (at level 52, left associativity) : u64_scope.
Infix "^%" := Z.lxor (at level 56, left associativity) : u64_scope.
Infix "|%" := Z.lor (at level 57, left associativity) : u64_scope.
Local Open Scope u64_scope.

(** In C++ a shift of a 64-bit value by a negative amount or by 64 or
    more is undefined: the checked shifts have no result there. *)
Definition shr64_checked (a n : Z) : option Z :=
  if (0 <=? n) && (n <? 64) then Some (a >>% n) else None.
Definition shl64_checked (a n : Z) : option Z :=
  if (0 <=? n) && (n <? 64) then Some (a <<% n) else None.

(** [bswap_64] comes from the system's byte-swap header: it reverses the
    eight bytes of its argument. *)
Definition byte_of (x i : Z) : Z := Z.land (x >>% (8 * i)) 255.
Definition bswap_64 (x : Z) : Z :=
  (byte_of x 0 <<% 56) |% (byte_of x 1 <<% 48) |% (byte_of x 2 <<% 40)
  |% (byte_of x 3 <<% 32) |% (byte_of x 4 <<% 24) |% (byte_of x 5 <<% 16)
  |% (byte_of x 6 <<% 8) |% byte_of x 7.

(** ** Memory and the read monad *)

Definition mem : Type := Z -> byte.

Definition byte_val (b : byte) : Z := Z.of_N (Byte.to_N b).

(** A computation reads the memory and returns a value and the addresses
    it read. *)
Definition M (A : Type) : Type := mem -> A * list Z.

Definition ret {A} (a : A) : M A := fun _ => (a, []).

Definition bind {A B} (c : M A) (f : A -> M B) : M B :=
  fun m =>
    let (a, t1) := c m in
    let (b, t2) := f a m in
    (b, t1 ++ t2).

Definition fmap {A B} (f : A -> B) (c : M A) : M B :=
  fun m => let (a, t) := c m in (f a, t).

Notation "x <- c ;; k" := (bind c (fun x => k))
  (at level 61, c at next level, right associativity).

Definition value {A} (c : M A) (m : mem) : A := fst (c m).
Definition trace {A} (c : M A) (m : mem) : list Z := snd (c m).

(** [s[i]] converted to an unsigned 8-bit value: the byte itself, whether
    [char] is signed or not. *)
Definition read_u8 (p : Z) : M Z := fun m => (byte_val (m p), [p]).

(** An unaligned load of [n] bytes on a little-endian host. *)
Fixpoint load_le (n : nat) (p : Z) : M Z :=
  match n with
  | O => ret 0
  | S n' =>
      b <- read_u8 p ;;
      r <- load_le n' (p + 1) ;;
      ret (b + 256 * r)
  end.

Definition UNALIGNED_LOAD64 (p : Z) : M Z := load_le 8 p.
Definition UNALIGNED_LOAD32 (p : Z) : M Z := load_le 4 p.

(** [WORDS_BIGENDIAN] is not defined: both macros are the identity. *)
Definition uint64_in_expected_order (x : Z) : Z := x.
Definition uint32_in_expected_order (x : Z) : Z := x.

Definition Fetch64 (p : Z) : M Z := fmap uint64_in_expected_order (UNALIGNED_LOAD64 p).
Definition Fetch32 (p : Z) : M Z := fmap uint32_in_expected_order (UNALIGNED_LOAD32 p).

(** ** Constants and mixing primitives *)

Definition k0 : Z := 0xc3a5c85c97cb3127.
Definition k1 : Z := 0xb492b66fbe98f273.
Definition k2 : Z := 0x9ae16a3b2f90404f.

Definition ShiftMix (val : Z) : Z := val ^% (val >>% 47).

(** Modelled from the spec: the type [uint128], its constructor and the
    accessors [Uint128Low64] and [Uint128High64] are declared outside the
    given sources; [uint128(u, v)] is the 128-bit value with high half [u]
    and low half [v]. *)
Record uint128_t : Type := uint128 { Uint128High64 : Z; Uint128Low64 : Z }.

Definition Hash128to64 (x : uint128_t) : Z :=
  let kMul := 0x9ddfea08eb382d69 in
  let a := (Uint128Low64 x ^% Uint128High64 x) *% kMul in
  let a := a ^% (a >>% 47) in
  let b := (Uint128High64 x ^% a) *% kMul in
  let b := b ^% (b >>% 47) in
  let b := b *% kMul in
  b.

Definition Rotate (val shift : Z) : Z :=
  if shift =? 0 then val else (val >>% shift) |% (val <<% (64 - shift)).

(** [Rotate] again, with the shifts checked: [None] stands for an
    undefined shift. *)
Definition Rotate_checked (val shift : Z) : option Z :=
  if shift =? 0 then Some val
  else
    match shr64_checked val shift, shl64_checked val (64 - shift) with
    | Some hi, Some lo => Some (hi |% lo)
    | _, _ => None
    end.

(** The two overloads of [HashLen16]. *)
Definition HashLen16 (u v : Z) : Z := Hash128to64 (uint128 u v).

Definition HashLen16_mul (u v mul : Z) : Z :=
  let a := (u ^% v) *% mul in
  let a := a ^% (a >>% 47) in
  let b := (v ^% a) *% mul in
  let b := b ^% (b >>% 47) in
  let b := b *% mul in
  b.

(** ** The small-input tiers *)

Definition HashLen0to16 (s len : Z) : M Z :=
  if 8 <=? len then
    let mul := k2 +% (len *% 2) in
    a0 <- Fetch64 s ;;
    let a := a0 +% k2 in
    b <- Fetch64 (s + len - 8) ;;
    let c := (Rotate b 37 *% mul) +% a in
    let d := (Rotate a 25 +% b) *% mul in
    ret (HashLen16_mul c d mul)
  else if 4 <=? len then
    let mul := k2 +% (len *% 2) in
    a <- Fetch32 s ;;
    t <- Fetch32 (s + len - 4) ;;
    ret (HashLen16_mul (len +% (a <<% 3)) t mul)
  else if 0 <? len then
    a <- read_u8 s ;;
    b <- read_u8 (s + (len >>% 1)) ;;
    c <- read_u8 (s + (len - 1)) ;;
    let y := add32 a (shl32 b 8) in
    let z := wrap32 (len +% shl32 c 2) in
    ret (ShiftMix ((y *% k2) ^% (z *% k0)) *% k2)
  else ret k2.

Definition HashLen17to32 (s len : Z) : M Z :=
  let mul := k2 +% (len *% 2) in
  a0 <- Fetch64 s ;;
  let a := a0 *% k1 in
  b <- Fetch64 (s + 8) ;;
  c0 <- Fetch64 (s + len - 8) ;;
  let c := c0 *% mul in
  d0 <- Fetch64 (s + len - 16) ;;
  let d := d0 *% k2 in
  ret (HashLen16_mul (Rotate (a +% b) 43 +% Rotate c 30 +% d)
         (a +% Rotate (b +% k2) 18 +% c) mul).

(** The overload on six words. *)
Definition WeakHashLen32WithSeeds (w x y z a b : Z) : Z * Z :=
  let a := a +% w in
  let b := Rotate (b +% a +% z) 21 in
  let c := a in
  let a := a +% x in
  let a := a +% y in
  let b := b +% Rotate a 44 in
  (a +% z, b +% c).

(** The overload on a pointer: the words are [s[0..31]]. *)
Definition WeakHashLen32WithSeeds_at (s a b : Z) : M (Z * Z) :=
  w <- Fetch64 s ;;
  x <- Fetch64 (s + 8) ;;
  y <- Fetch64 (s + 16) ;;
  z <- Fetch64 (s + 24) ;;
  ret (WeakHashLen32WithSeeds w x y z a b).

Definition HashLen33to64 (s len : Z) : M Z :=
  let mul := k2 +% (len *% 2) in
  a0 <- Fetch64 s ;;
  let a := a0 *% k2 in
  b <- Fetch64 (s + 8) ;;
  c <- Fetch64 (s + len - 24) ;;
  d <- Fetch64 (s + len - 32) ;;
  e0 <- Fetch64 (s + 16) ;;
  let e := e0 *% k2 in
  f0 <- Fetch64 (s + 24) ;;
  let f := f0 *% 9 in
  g <- Fetch64 (s + len - 8) ;;
  h0 <- Fetch64 (s + len - 16) ;;
  let h := h0 *% mul in
  let u := Rotate (a +% g) 43 +% ((Rotate b 30 +% c) *% 9) in
  let v := ((a +% g) ^% d) +% f +% 1 in
  let w := bswap_64 ((u +% v) *% mul) +% h in
  let x := Rotate (e +% f) 42 +% c in
  let y := (bswap_64 ((v +% w) *% mul) +% g) *% mul in
  let z := e +% f +% c in
  let a := bswap_64 (((x +% z) *% mul) +% y) +% b in
  let b := ShiftMix (((z +% a) *% mul) +% d +% h) *% mul in
  ret (b +% x).

(** ** The large-input engine *)

(** The local variables of [CityHash64] that live across the loop. *)
Record loop_state : Type := mk_state {
  st_s : Z; st_len : Z;
  st_x : Z; st_y : Z; st_z : Z;
  st_v : Z * Z; st_w : Z * Z
}.

(** Lines 205 to 213: the accumulators before the loop, and the loop
    counter [len = (len - 1) & ~63]. *)
Definition CityHash64_seed (s len : Z) : M loop_state :=
  x <- Fetch64 (s + len - 40) ;;
  y1 <- Fetch64 (s + len - 16) ;;
  y2 <- Fetch64 (s + len - 56) ;;
  let y := y1 +% y2 in
  z1 <- Fetch64 (s + len - 48) ;;
  z2 <- Fetch64 (s + len - 24) ;;
  let z := HashLen16 (z1 +% len) z2 in
  v <- WeakHashLen32WithSeeds_at (s + len - 64) len z ;;
  w <- WeakHashLen32WithSeeds_at (s + len - 32) (y +% k1) x ;;
  x0 <- Fetch64 s ;;
  let x := (x *% k1) +% x0 in
  let len := Z.land (sub64 len 1) (wrap64 (Z.lnot 63)) in
  ret (mk_state s len x y z v w).

(** Lines 215 to 224: one pass through the body of the do-while loop. *)
Definition chunk_body (st : loop_state) : M loop_state :=
  let '(mk_state s len x y z v w) := st in
  x1 <- Fetch64 (s + 8) ;;
  let x := Rotate (x +% y +% fst v +% x1) 37 *% k1 in
  y1 <- Fetch64 (s + 48) ;;
  let y := Rotate (y +% snd v +% y1) 42 *% k1 in
  let x := x ^% snd w in
  y2 <- Fetch64 (s + 40) ;;
  let y := y +% (fst v +% y2) in
  let z := Rotate (z +% fst w) 33 *% k1 in
  v' <- WeakHashLen32WithSeeds_at s (snd v *% k1) (x +% fst w) ;;
  w1 <- Fetch64 (s + 16) ;;
  w' <- WeakHashLen32WithSeeds_at (s + 32) (z +% snd w) (y +% w1) ;;
  ret (mk_state (s + 64) (sub64 len 64) z y x v' w').

(** The do-while loop: the body, then the test [len != 0].  [fuel] bounds
    the number of passes; [None] means the bound was reached with the
    test still true. *)
Fixpoint chunk_loop (fuel : nat) (st : loop_state) : M (option loop_state) :=
  match fuel with
  | O => ret None
  | S fuel' =>
      st' <- chunk_body st ;;
      if st_len st' =? 0 then ret (Some st') else chunk_loop fuel' st'
  end.

(** Lines 226 and 227. *)
Definition CityHash64_final (st : loop_state) : Z :=
  let '(mk_state _ _ x y z v w) := st in
  HashLen16 (HashLen16 (fst v) (fst w) +% (ShiftMix y *% k1) +% z)
            (HashLen16 (snd v) (snd w) +% x).

Definition CityHash64_large (fuel : nat) (s len : Z) : M (option Z) :=
  st0 <- CityHash64_seed s len ;;
  fmap (option_map CityHash64_final) (chunk_loop fuel st0).

Definition CityHash64 (fuel : nat) (s len : Z) : M (option Z) :=
  if len <=? 32 then
    if len <=? 16 then fmap Some (HashLen0to16 s len)
    else fmap Some (HashLen17to32 s len)
  else if len <=? 64 then fmap Some (HashLen33to64 s len)
  else CityHash64_large fuel s len.

(** ** LoadBytes *)

(** Whether plain [char] is signed is fixed by the platform (it is on
    x86-64, it is not on ARM Linux).  [buf[len]] has type [char]: in
    [(val << 8) | buf[len]] it is promoted to [int] and then converted to
    [uint64], which sign-extends a negative value.

    [len] is an [int], taken here as an integer of [Z], and
    [DCHECK_LT(len, 9)] is not part of the embedding: the definitions
    below are those of the source for -2^31 + 2 <= len <= 8, where the
    check passes and neither [--len] overflows. *)
Section PlainChar.
Variable char_signed : bool.

Definition char_to_int (b : byte) : Z :=
  let v := byte_val b in
  if char_signed && (128 <=? v) then v - 256 else v.

Definition read_char (p : Z) : M Z := fun m => (char_to_int (m p), [p]).

(** The do-while loop of [LoadBytes], entered after the first [--len]:
    the body, then the test [--len >= 0]. *)
Equations? LoadBytes_loop (buf len val : Z) : M Z by wf (Z.to_nat len) lt :=
  LoadBytes_loop buf len val :=
    c <- read_char (buf + len) ;;
    let val := (val <<% 8) |% wrap64 c in
    match Z_le_dec 0 (len - 1) with
    | left _ => LoadBytes_loop buf (len - 1) val
    | right _ => ret val
    end.
Proof. lia. Qed.

Definition LoadBytes (buf len : Z) : M Z :=
  let val := 0 in
  let len := len - 1 in
  LoadBytes_loop buf len val.
End PlainChar.

(** ** MurmurHash64 *)

(** The conversion of a [size_t] to [int]: the value modulo 2^32, read as
    a signed 32-bit integer. *)
Definition to_int32 (z : Z) : Z :=
  let w := z mod 2 ^ 32 in
  if w <? 2 ^ 31 then w else w - 2 ^ 32.

(** [LittleEndian::Load64] is declared outside the given sources: the
    unaligned little-endian load of 8 bytes. *)
Definition LittleEndian_Load64 (p : Z) : M Z := load_le 8 p.

Definition Murmur_mul : Z := 0xc6a4a7935bd1e995.

(** The for loop of [MurmurHash64]: the test [p != end], then the body and
    [p += 8].  [fuel] bounds the number of passes through the body. *)
Fixpoint MurmurHash64_loop (fuel : nat) (p end_ hash : Z) : M (option Z) :=
  if p =? end_ then ret (Some hash)
  else
    match fuel with
    | O => ret None
    | S fuel' =>
        w <- LittleEndian_Load64 p ;;
        let data := ShiftMix (w *% Murmur_mul) *% Murmur_mul in
        let hash := hash ^% data in
        let hash := hash *% Murmur_mul in
        MurmurHash64_loop fuel' (p + 8) end_ hash
    end.

Section Murmur.
Variable char_signed : bool.

(** Lines 65 to 69: the bytes left after the last whole word. *)
Definition MurmurHash64_tail (end_ len hash : Z) : M Z :=
  if negb (Z.land len 7 =? 0) then
    data <- LoadBytes char_signed end_ (to_int32 (Z.land len 7)) ;;
    let hash := hash ^% data in
    let hash := hash *% Murmur_mul in
    ret hash
  else ret hash.

Definition MurmurHash64 (fuel : nat) (buf len : Z) : M (option Z) :=
  let len_aligned := to_int32 (Z.land len (wrap64 (Z.lnot 7))) in
  let end_ := buf + len_aligned in
  let hash := len *% Murmur_mul in
  r <- MurmurHash64_loop fuel buf end_ hash ;;
  match r with
  | None => ret None
  | Some hash =>
      hash <- MurmurHash64_tail end_ len hash ;;
      let hash := ShiftMix hash *% Murmur_mul in
      let hash := ShiftMix hash in
      ret (Some hash)
  end.
End Murmur.

(** ** Vocabulary of the statements *)

(** The memory that holds the byte string [bs] from address 0 on, and
    zero bytes elsewhere. *)
Definition mem_of (bs : list byte) : mem :=
  fun p => if p <? 0 then x00 else nth (Z.to_nat p) bs x00.

Definition zero_mem : mem := mem_of [].

(** [hash64(bytes, length)] on a byte string. *)
Definition hash64 (fuel : nat) (bs : list byte) : option Z :=
  value (CityHash64 fuel 0 (Z.of_nat (length bs))) (mem_of bs).

(** The branches of lines 193 to 201, by name. *)
Inductive tier : Type := Tier0to16 | Tier17to32 | Tier33to64 | TierLarge.

Definition dispatch (len : Z) : tier :=
  if len <=? 32 then
    if len <=? 16 then Tier0to16 else Tier17to32
  else if len <=? 64 then Tier33to64
  else TierLarge.

Definition run_tier (t : tier) (fuel : nat) (s len : Z) : M (option Z) :=
  match t with
  | Tier0to16 => fmap Some (HashLen0to16 s len)
  | Tier17to32 => fmap Some (HashLen17to32 s len)
  | Tier33to64 => fmap Some (HashLen33to64 s len)
  | TierLarge => CityHash64_large fuel s len
  end.

(** Every address a computation reads is in [[lo, hi)]. *)
Definition reads_in {A} (lo hi : Z) (c : M A) : Prop :=
  forall m, Forall (fun p => lo <= p < hi) (trace c m).

(** A computation whose value is an unsigned 64-bit integer in every
    memory. *)
Definition returns_u64 (c : M Z) : Prop :=
  forall m, 0 <= value c m < 2 ^ 64.

(** The state after [k] passes through the loop body. *)
Fixpoint after_chunks (k : nat) (st : loop_state) (m : mem) : loop_state :=
  match k with
  | O => st
  | S k' => after_chunks k' (value (chunk_body st) m) m
  end.

(** The loop leaves after exactly [n] passes: [n] passes suffice and no
    smaller number does. *)
Definition loop_passes (n : nat) (st : loop_state) (m : mem) : Prop :=
  value (chunk_loop n st) m <> None /\
  forall fuel, (fuel < n)%nat -> value (chunk_loop fuel st) m = None.

(** Two memories hold the same bytes at the addresses of [[lo, hi)]. *)
Definition agree (lo hi : Z) (m1 m2 : mem) : Prop :=
  forall p, lo <= p < hi -> m1 p = m2 p.

(** The value the specification gives to [LoadBytes(buf, n)]: the sum over
    [i < n] of the byte at [buf[i]] times [2^(8*i)]. *)
Fixpoint packed_le (m : mem) (buf : Z) (n : nat) : Z :=
  match n with
  | O => 0
  | S k => packed_le m buf k + byte_val (m (buf + Z.of_nat k)) * 2 ^ (8 * Z.of_nat k)
  end.

(** The [len] bytes at [s1] in [m1] are the [len] bytes at [s2] in [m2]. *)
Definition same_bytes (s1 : Z) (m1 : mem) (s2 : Z) (m2 : mem) (len : Z) : Prop :=
  forall i, 0 <= i < len -> m1 (s1 + i) = m2 (s2 + i).

(** The loop state with its cursor moved by [d]. *)
Definition shift_state (d : Z) (st : loop_state) : loop_state :=
  mk_state (st_s st + d) (st_len st) (st_x st) (st_y st) (st_z st)
           (st_v st) (st_w st).

(** Two computations, one run in [m1] and one in [m2], whose values are
    related by [R]. *)
Definition simR {A} (m1 m2 : mem) (R : A -> A -> Prop) (c1 c2 : M A) : Prop :=
  R (value c1 m1) (value c2 m2).

(** * Properties *)

(** ** The definitions on small inputs *)

Example bswap_64_bytes : bswap_64 0x0102030405060708 = 0x0807060504030201.
Proof. reflexivity. Qed.

Example Rotate_by_one : Rotate 1 1 = 2 ^ 63 /\ Rotate (2 ^ 63) 63 = 1.
Proof. split; reflexivity. Qed.

Example Fetch64_little_endian :
  Fetch64 0 (mem_of [x01; x02; x03; x04; x05; x06; x07; x08]) =
  (0x0807060504030201, [0; 1; 2; 3; 4; 5; 6; 7]).
Proof. reflexivity. Qed.

Example HashLen0to16_three_bytes_reads :
  trace (HashLen0to16 0 3) (mem_of [x61; x62; x63]) = [0; 1; 2].
Proof. reflexivity. Qed.

Example LoadBytes_ascii :
  LoadBytes true 0 3 (mem_of [x61; x62; x63]) = (0x636261, [2; 1; 0]).
Proof. reflexivity. Qed.

Example chunk_loop_two_passes :
  option_map st_s
    (value (chunk_loop 2 (value (CityHash64_seed 0 129) zero_mem)) zero_mem)
  = Some 128.
Proof. vm_compute. reflexivity. Qed.

(** ** Arithmetic facts *)

(** Linear arithmetic with division and remainder by constants. *)
Ltac dlia := Z.div_mod_to_equations; lia.

Lemma wrap64_range z : 0 <= wrap64 z < 2 ^ 64.
Proof. unfold wrap64. apply Z.mod_pos_bound. lia. Qed.

Lemma wrap64_small z : 0 <= z < 2 ^ 64 -> wrap64 z = z.
Proof. intros H. unfold wrap64. apply Z.mod_small. exact H. Qed.

Lemma mul64_range a b : 0 <= a *% b < 2 ^ 64.
Proof. apply wrap64_range. Qed.

Lemma add64_range a b : 0 <= a +% b < 2 ^ 64.
Proof. apply wrap64_range. Qed.

(** [n & ~63] clears the six low bits. *)
Lemma land_not63 n :
  0 <= n < 2 ^ 64 -> Z.land n (wrap64 (Z.lnot 63)) = 64 * (n / 64).
Proof.
  intros Hn.
  assert (Hmask : wrap64 (Z.lnot 63) = Z.shiftl (Z.ones 58) 6) by reflexivity.
  rewrite Hmask.
  replace (64 * (n / 64)) with (Z.shiftl (Z.shiftr n 6) 6)
    by (rewrite Z.shiftl_mul_pow2, Z.shiftr_div_pow2 by lia;
        change (2 ^ 6) with 64; lia).
  apply Z.bits_inj'. intros i Hi.
  rewrite Z.land_spec, !Z.shiftl_spec by lia.
  destruct (Z.ltb_spec i 6) as [Hlt | Hge].
  - rewrite (Z.testbit_neg_r _ (i - 6)) by lia.
    rewrite (Z.testbit_neg_r _ (i - 6)) by lia.
    apply andb_false_r.
  - rewrite Z.shiftr_spec by lia.
    replace (i - 6 + 6) with i by lia.
    destruct (Z.ltb_spec i 64) as [Hlt | Hge64].
    + rewrite Z.ones_spec_low by lia. apply andb_true_r.
    + rewrite Z.ones_spec_high by lia. rewrite andb_false_r.
      symmetry. apply Z.bits_above_log2; [lia |].
      destruct (Z.eq_dec n 0) as [-> | Hnz]; [simpl; lia |].
      apply Z.log2_lt_pow2; [lia |].
      apply Z.lt_le_trans with (2 ^ 64); [lia |].
      apply Z.pow_le_mono_r; lia.
Qed.

(** ** The read monad *)

Section MonadFacts.
Context {A B : Type}.

Lemma value_ret (a : A) m : value (ret a) m = a.
Proof. reflexivity. Qed.

Lemma trace_ret (a : A) m : trace (ret a) m = [].
Proof. reflexivity. Qed.

Lemma value_bind (c : M A) (f : A -> M B) m :
  value (bind c f) m = value (f (value c m)) m.
Proof.
  unfold value, bind. destruct (c m) as [a t1]. simpl.
  destruct (f a m). reflexivity.
Qed.

Lemma trace_bind (c : M A) (f : A -> M B) m :
  trace (bind c f) m = trace c m ++ trace (f (value c m)) m.
Proof.
  unfold trace, value, bind. destruct (c m) as [a t1]. simpl.
  destruct (f a m). reflexivity.
Qed.

Lemma value_fmap (g : A -> B) (c : M A) m :
  value (fmap g c) m = g (value c m).
Proof. unfold value, fmap. destruct (c m). reflexivity. Qed.

Lemma trace_fmap (g : A -> B) (c : M A) m :
  trace (fmap g c) m = trace c m.
Proof. unfold trace, fmap. destruct (c m). reflexivity. Qed.
End MonadFacts.

Section ReadsIn.
Variables lo hi : Z.

Lemma reads_in_ret {A} (a : A) : reads_in lo hi (ret a).
Proof. intros m. constructor. Qed.

Lemma reads_in_bind {A B} (c : M A) (f : A -> M B) :
  reads_in lo hi c -> (forall a, reads_in lo hi (f a)) ->
  reads_in lo hi (bind c f).
Proof.
  intros Hc Hf m. rewrite trace_bind. apply Forall_app. split.
  - apply Hc.
  - apply Hf.
Qed.

Lemma reads_in_fmap {A B} (g : A -> B) (c : M A) :
  reads_in lo hi c -> reads_in lo hi (fmap g c).
Proof. intros Hc m. rewrite trace_fmap. apply Hc. Qed.

Lemma reads_in_read_u8 p : lo <= p < hi -> reads_in lo hi (read_u8 p).
Proof. intros Hp m. constructor; [exact Hp | constructor]. Qed.

Lemma reads_in_load_le n : forall p,
  lo <= p -> p + Z.of_nat n <= hi -> reads_in lo hi (load_le n p).
Proof.
  induction n as [| n IH]; intros p Hlo Hhi.
  - apply reads_in_ret.
  - cbn [load_le]. apply reads_in_bind.
    + apply reads_in_read_u8. lia.
    + intros b. apply reads_in_bind.
      * apply IH; lia.
      * intros r. apply reads_in_ret.
Qed.

Lemma reads_in_Fetch64 p : lo <= p -> p + 8 <= hi -> reads_in lo hi (Fetch64 p).
Proof.
  intros Hlo Hhi. apply reads_in_fmap.
  apply (reads_in_load_le 8); simpl; lia.
Qed.

Lemma reads_in_Fetch32 p : lo <= p -> p + 4 <= hi -> reads_in lo hi (Fetch32 p).
Proof.
  intros Hlo Hhi. apply reads_in_fmap.
  apply (reads_in_load_le 4); simpl; lia.
Qed.

Lemma reads_in_Weak s a b :
  lo <= s -> s + 32 <= hi -> reads_in lo hi (WeakHashLen32WithSeeds_at s a b).
Proof.
  intros Hlo Hhi. unfold WeakHashLen32WithSeeds_at.
  repeat (apply reads_in_bind; [apply reads_in_Fetch64; lia | intros ?]).
  apply reads_in_ret.
Qed.
End ReadsIn.

(** Walks a straight-line computation, leaving the address bounds to
    [lia]. *)
Ltac reads_step :=
  first
    [ apply reads_in_ret
    | apply reads_in_fmap
    | apply reads_in_Fetch64; lia
    | apply reads_in_Fetch32; lia
    | apply reads_in_read_u8; lia
    | apply reads_in_Weak; lia
    | apply reads_in_bind; [| intros ?] ].
Ltac reads := cbv zeta; repeat reads_step.

Lemma returns_u64_bind {A} (c : M A) (f : A -> M Z) :
  (forall a, returns_u64 (f a)) -> returns_u64 (bind c f).
Proof. intros Hf m. rewrite value_bind. apply Hf. Qed.

Lemma HashLen16_mul_range u v mul : 0 <= HashLen16_mul u v mul < 2 ^ 64.
Proof. apply mul64_range. Qed.

Lemma HashLen16_range u v : 0 <= HashLen16 u v < 2 ^ 64.
Proof. apply mul64_range. Qed.

Lemma k2_range : 0 <= k2 < 2 ^ 64.
Proof. unfold k2. lia. Qed.

Ltac u64_step :=
  first
    [ apply returns_u64_bind; intros ?
    | intros ?; rewrite value_ret;
      first [ apply HashLen16_mul_range | apply mul64_range
            | apply add64_range | apply k2_range ] ].
Ltac u64 := cbv zeta; repeat u64_step.

Lemma HashLen0to16_u64 s len : returns_u64 (HashLen0to16 s len).
Proof.
  unfold HashLen0to16.
  destruct (8 <=? len); [u64 |].
  destruct (4 <=? len); [u64 |].
  destruct (0 <? len); u64.
Qed.

Lemma HashLen17to32_u64 s len : returns_u64 (HashLen17to32 s len).
Proof. unfold HashLen17to32. u64. Qed.

Lemma HashLen33to64_u64 s len : returns_u64 (HashLen33to64 s len).
Proof. unfold HashLen33to64. u64. Qed.

Lemma CityHash64_final_range st : 0 <= CityHash64_final st < 2 ^ 64.
Proof. destruct st. apply HashLen16_range. Qed.

(** ** The chunk loop *)

Lemma chunk_body_s st m : st_s (value (chunk_body st) m) = st_s st + 64.
Proof.
  destruct st. unfold chunk_body. cbv zeta.
  repeat rewrite value_bind. reflexivity.
Qed.

Lemma chunk_body_len st m :
  st_len (value (chunk_body st) m) = sub64 (st_len st) 64.
Proof.
  destruct st. unfold chunk_body. cbv zeta.
  repeat rewrite value_bind. reflexivity.
Qed.

Lemma chunk_body_reads st lo hi :
  lo <= st_s st -> st_s st + 64 <= hi -> reads_in lo hi (chunk_body st).
Proof.
  destruct st as [s len x y z v w]. cbn [st_s]. intros Hlo Hhi.
  unfold chunk_body. reads.
Qed.

Lemma seed_s s len m : st_s (value (CityHash64_seed s len) m) = s.
Proof.
  unfold CityHash64_seed. cbv zeta. repeat rewrite value_bind. reflexivity.
Qed.

Lemma seed_len s len m :
  0 < len < 2 ^ 64 ->
  st_len (value (CityHash64_seed s len) m) = 64 * ((len - 1) / 64).
Proof.
  intros Hlen. unfold CityHash64_seed. cbv zeta.
  repeat rewrite value_bind. rewrite value_ret. cbn [st_len].
  unfold sub64. rewrite wrap64_small by lia.
  apply land_not63. lia.
Qed.

Lemma seed_reads s len :
  64 <= len -> reads_in s (s + len) (CityHash64_seed s len).
Proof. intros Hlen. unfold CityHash64_seed. reads. Qed.

Section Loop.
Variable m : mem.

(** One pass from a counter [64 * (n + 1)] leaves [64 * n]. *)
Lemma chunk_body_counter st (n : nat) :
  st_len st = 64 * Z.of_nat (S n) -> st_len st < 2 ^ 64 ->
  st_len (value (chunk_body st) m) = 64 * Z.of_nat n.
Proof.
  intros Hlen Hlt. rewrite chunk_body_len, Hlen.
  unfold sub64. rewrite wrap64_small by lia. lia.
Qed.

Lemma chunk_loop_unfold fuel st :
  value (chunk_loop (S fuel) st) m =
  let st' := value (chunk_body st) m in
  if st_len st' =? 0 then Some st' else value (chunk_loop fuel st') m.
Proof.
  cbn [chunk_loop]. rewrite value_bind. cbv zeta.
  destruct (st_len (value (chunk_body st) m) =? 0); reflexivity.
Qed.

Lemma chunk_loop_enough : forall fuel (n : nat) st,
  st_len st = 64 * Z.of_nat (S n) -> st_len st < 2 ^ 64 ->
  (S n <= fuel)%nat ->
  value (chunk_loop fuel st) m = Some (after_chunks (S n) st m).
Proof.
  induction fuel as [| fuel IH]; intros n st Hlen Hlt Hfuel; [lia |].
  rewrite chunk_loop_unfold. cbv zeta.
  pose proof (chunk_body_counter st n Hlen Hlt) as Hnext.
  destruct n as [| n].
  - rewrite Hnext. reflexivity.
  - destruct (Z.eqb_spec (st_len (value (chunk_body st) m)) 0) as [E | _];
      [lia |].
    rewrite (IH n) by lia. reflexivity.
Qed.

Lemma chunk_loop_short : forall fuel (n : nat) st,
  st_len st = 64 * Z.of_nat (S n) -> st_len st < 2 ^ 64 ->
  (fuel < S n)%nat ->
  value (chunk_loop fuel st) m = None.
Proof.
  induction fuel as [| fuel IH]; intros n st Hlen Hlt Hfuel; [reflexivity |].
  rewrite chunk_loop_unfold. cbv zeta.
  pose proof (chunk_body_counter st n Hlen Hlt) as Hnext.
  destruct n as [| n]; [lia |].
  destruct (Z.eqb_spec (st_len (value (chunk_body st) m)) 0) as [E | _];
    [lia |].
  apply (IH n); lia.
Qed.

Lemma after_chunks_cursor : forall (k n : nat) st,
  st_len st = 64 * Z.of_nat n -> st_len st < 2 ^ 64 -> (k <= n)%nat ->
  st_s (after_chunks k st m) = st_s st + 64 * Z.of_nat k /\
  st_len (after_chunks k st m) = st_len st - 64 * Z.of_nat k.
Proof.
  induction k as [| k IH]; intros n st Hlen Hlt Hk.
  - cbn [after_chunks]. split; lia.
  - destruct n as [| n]; [lia |].
    pose proof (chunk_body_counter st n Hlen Hlt) as Hnext.
    cbn [after_chunks].
    destruct (IH n (value (chunk_body st) m) Hnext) as [Hs Hl]; [lia | lia |].
    rewrite Hs, Hl, chunk_body_s, Hnext, Hlen. split; lia.
Qed.
End Loop.

Lemma chunk_loop_reads lo hi : forall fuel (n : nat) st,
  st_len st = 64 * Z.of_nat (S n) -> st_len st < 2 ^ 64 ->
  lo <= st_s st -> st_s st + st_len st <= hi ->
  reads_in lo hi (chunk_loop fuel st).
Proof.
  induction fuel as [| fuel IH]; intros n st Hlen Hlt Hlo Hhi.
  - apply reads_in_ret.
  - cbn [chunk_loop]. intros m. rewrite trace_bind. apply Forall_app. split.
    + apply chunk_body_reads; lia.
    + pose proof (chunk_body_counter m st n Hlen Hlt) as Hnext.
      pose proof (chunk_body_s st m) as Hs.
      destruct (Z.eqb_spec (st_len (value (chunk_body st) m)) 0) as [E | NE].
      * constructor.
      * destruct n as [| n]; [lia |].
        apply (IH n); lia.
Qed.

(** ** Which addresses a computation reads *)

Section Covers.
Variable m : mem.
Variable q : Z.

Lemma In_trace_bind_l {A B} (c : M A) (f : A -> M B) :
  In q (trace c m) -> In q (trace (bind c f) m).
Proof. intros H. rewrite trace_bind. apply in_or_app. left. exact H. Qed.

Lemma In_trace_bind_r {A B} (c : M A) (f : A -> M B) :
  (forall a, In q (trace (f a) m)) -> In q (trace (bind c f) m).
Proof. intros H. rewrite trace_bind. apply in_or_app. right. apply H. Qed.

Lemma In_trace_fmap {A B} (g : A -> B) (c : M A) :
  In q (trace c m) -> In q (trace (fmap g c) m).
Proof. intros H. rewrite trace_fmap. exact H. Qed.

Lemma In_trace_read_u8 p : q = p -> In q (trace (read_u8 p) m).
Proof. intros ->. left. reflexivity. Qed.

Lemma In_trace_load_le n : forall p,
  p <= q < p + Z.of_nat n -> In q (trace (load_le n p) m).
Proof.
  induction n as [| n IH]; intros p Hq; [lia |].
  cbn [load_le].
  destruct (Z.eq_dec q p) as [E | NE].
  - apply In_trace_bind_l, In_trace_read_u8, E.
  - apply In_trace_bind_r. intros b. apply In_trace_bind_l, IH. lia.
Qed.

Lemma In_trace_Fetch64 p : p <= q < p + 8 -> In q (trace (Fetch64 p) m).
Proof. intros Hq. apply In_trace_fmap, (In_trace_load_le 8). simpl. lia. Qed.

Lemma In_trace_Fetch32 p : p <= q < p + 4 -> In q (trace (Fetch32 p) m).
Proof. intros Hq. apply In_trace_fmap, (In_trace_load_le 4). simpl. lia. Qed.

Lemma In_trace_Weak p a b :
  p <= q < p + 32 -> In q (trace (WeakHashLen32WithSeeds_at p a b) m).
Proof.
  intros Hq. unfold WeakHashLen32WithSeeds_at.
  destruct (Z.lt_ge_cases q (p + 8));
    [apply In_trace_bind_l, In_trace_Fetch64; lia |].
  apply In_trace_bind_r; intros w.
  destruct (Z.lt_ge_cases q (p + 16));
    [apply In_trace_bind_l, In_trace_Fetch64; lia |].
  apply In_trace_bind_r; intros x.
  destruct (Z.lt_ge_cases q (p + 24));
    [apply In_trace_bind_l, In_trace_Fetch64; lia |].
  apply In_trace_bind_r; intros y.
  apply In_trace_bind_l, In_trace_Fetch64. lia.
Qed.
End Covers.

(** Looks for the read of a straight-line computation that the bounds
    on the address in the context single out. *)
Ltac find_read :=
  cbv zeta;
  lazymatch goal with
  | |- In _ (trace (bind _ _) _) =>
      first [ apply In_trace_bind_l; solve [find_read]
            | apply In_trace_bind_r; intros ?; find_read ]
  | |- In _ (trace (fmap _ _) _) => apply In_trace_fmap; find_read
  | |- In _ (trace (Fetch64 _) _) => apply In_trace_Fetch64; lia
  | |- In _ (trace (Fetch32 _) _) => apply In_trace_Fetch32; lia
  | |- In _ (trace (read_u8 _) _) => apply In_trace_read_u8; dlia
  | |- In _ (trace (WeakHashLen32WithSeeds_at _ _ _) _) =>
      apply In_trace_Weak; lia
  end.

Ltac cut_at q x := destruct (Z.lt_ge_cases q x); [solve [find_read] |].

Lemma chunk_body_covers m st q :
  st_s st <= q < st_s st + 64 -> In q (trace (chunk_body st) m).
Proof.
  destruct st as [s n x y z v w]. cbn [st_s]. intros Hq.
  unfold chunk_body. cut_at q (s + 32). find_read.
Qed.

(** ** The claims on the chunk loop *)

(** C1, as amended: for 64 < len the loop counter starts at the largest
    multiple of 64 strictly below [len], that is 64 * floor((len-1)/64);
    the loop makes exactly floor((len-1)/64) passes; pass [k] consumes the
    chunk [[s + 64k, s + 64k + 64)]: it reads every byte of it and nothing
    outside it; the cursor advances by 64 and the counter drops by 64 in
    each pass, and the loop leaves exactly when the counter is 0. *)
Theorem chunk_loop_pass_count m s len :
  64 < len < 2 ^ 64 ->
  let st0 := value (CityHash64_seed s len) m in
  let n := Z.to_nat ((len - 1) / 64) in
  st_len st0 = 64 * ((len - 1) / 64) /\
  st_len st0 < len <= st_len st0 + 64 /\
  loop_passes n st0 m /\
  value (chunk_loop n st0) m = Some (after_chunks n st0 m) /\
  (forall k, (k <= n)%nat ->
     st_s (after_chunks k st0 m) = s + 64 * Z.of_nat k /\
     st_len (after_chunks k st0 m) = st_len st0 - 64 * Z.of_nat k /\
     (st_len (after_chunks k st0 m) = 0 <-> k = n)) /\
  (forall k, (k < n)%nat ->
     reads_in (s + 64 * Z.of_nat k) (s + 64 * Z.of_nat k + 64)
       (chunk_body (after_chunks k st0 m))) /\
  (forall k q, (k < n)%nat ->
     s + 64 * Z.of_nat k <= q < s + 64 * Z.of_nat k + 64 ->
     In q (trace (chunk_body (after_chunks k st0 m)) m)).
Proof.
  intros Hlen st0 n.
  assert (Hst : st_len st0 = 64 * ((len - 1) / 64))
    by (apply seed_len; lia).
  assert (Hs : st_s st0 = s) by apply seed_s.
  assert (Hn : Z.of_nat n = (len - 1) / 64)
    by (unfold n; rewrite Z2Nat.id; dlia).
  assert (Hpos : (1 <= n)%nat) by dlia.
  destruct n as [| n'] eqn:En; [lia |].
  assert (Hst' : st_len st0 = 64 * Z.of_nat (S n')) by lia.
  assert (Hlt : st_len st0 < 2 ^ 64) by dlia.
  assert (Hrun : value (chunk_loop (S n') st0) m = Some (after_chunks (S n') st0 m))
    by (apply chunk_loop_enough; [exact Hst' | exact Hlt | lia]).
  split; [exact Hst |].
  split; [dlia |].
  split.
  { split.
    - rewrite Hrun. discriminate.
    - intros fuel Hfuel. apply (chunk_loop_short m fuel n'); assumption. }
  split; [exact Hrun |].
  split; [| split].
  - intros k Hk.
    destruct (after_chunks_cursor m k (S n') st0 Hst' Hlt Hk) as [Hc Hl].
    rewrite Hc, Hl, Hs. repeat split; lia.
  - intros k Hk.
    destruct (after_chunks_cursor m k (S n') st0 Hst' Hlt) as [Hc _]; [lia |].
    apply chunk_body_reads; rewrite Hc, Hs; lia.
  - intros k q Hk Hq.
    destruct (after_chunks_cursor m k (S n') st0 Hst' Hlt) as [Hc _]; [lia |].
    apply chunk_body_covers. rewrite Hc, Hs. exact Hq.
Qed.

Lemma chunk_loop_pass_count_witness :
  64 < 200 < 2 ^ 64 /\
  loop_passes 3 (value (CityHash64_seed 0 200) zero_mem) zero_mem.
Proof.
  split; [lia |].
  apply (chunk_loop_pass_count zero_mem 0 200). lia.
Defined.

(** C1, as stated, fails at len = 128: floor(128/64) = 2, and the loop
    already leaves after one pass. *)
Lemma chunk_loop_pass_count_not_floor :
  64 < 128 < 2 ^ 64 /\
  ~ loop_passes (Z.to_nat (128 / 64))
      (value (CityHash64_seed 0 128) zero_mem) zero_mem.
Proof.
  split; [lia |].
  intros [_ Hnone].
  specialize (Hnone 1%nat).
  assert (Hone : value (chunk_loop 1 (value (CityHash64_seed 0 128) zero_mem))
                   zero_mem <> None)
    by (vm_compute; discriminate).
  apply Hone, Hnone. vm_compute. lia.
Qed.

(** ** Reads stay inside the buffer *)

Lemma HashLen0to16_reads s len :
  0 <= len -> reads_in s (s + len) (HashLen0to16 s len).
Proof.
  intros Hlen. unfold HashLen0to16.
  destruct (Z.leb_spec 8 len); [reads |].
  destruct (Z.leb_spec 4 len); [reads |].
  destruct (Z.ltb_spec 0 len); [| reads].
  assert (Hmid : 0 <= len >>% 1 < len).
  { unfold shr64. rewrite Z.shiftr_div_pow2 by lia. change (2 ^ 1) with 2. dlia. }
  reads.
Qed.

Lemma CityHash64_large_reads fuel s len :
  64 < len < 2 ^ 64 -> reads_in s (s + len) (CityHash64_large fuel s len).
Proof.
  intros Hlen m. unfold CityHash64_large.
  rewrite trace_bind, trace_fmap. apply Forall_app. split.
  - apply seed_reads. lia.
  - pose proof (seed_len s len m ltac:(lia)) as Hst.
    pose proof (seed_s s len m) as Hs.
    apply (chunk_loop_reads s (s + len) fuel (Z.to_nat ((len - 1) / 64 - 1)));
      rewrite ?Nat2Z.inj_succ, ?Z2Nat.id; dlia.
Qed.

(** C3: for every length 0 <= len (a [size_t]) every address read by
    [CityHash64 s len], in whichever tier and however many loop passes
    were made, lies in [[s, s + len)]. *)
Theorem CityHash64_reads_within_buffer fuel s len :
  0 <= len < 2 ^ 64 -> reads_in s (s + len) (CityHash64 fuel s len).
Proof.
  intros Hlen. unfold CityHash64.
  destruct (Z.leb_spec len 32).
  - destruct (Z.leb_spec len 16); apply reads_in_fmap.
    + apply HashLen0to16_reads. lia.
    + unfold HashLen17to32. reads.
  - destruct (Z.leb_spec len 64).
    + apply reads_in_fmap. unfold HashLen33to64. reads.
    + apply CityHash64_large_reads. lia.
Qed.

Lemma CityHash64_reads_within_buffer_witness :
  0 <= 200 < 2 ^ 64 /\ reads_in 1000 (1000 + 200) (CityHash64 3 1000 200).
Proof.
  split; [lia |].
  apply (CityHash64_reads_within_buffer 3 1000 200). lia.
Defined.

(** ** Dispatch, the empty input, totality *)

(** C5: the routing of [CityHash64] is a function of [len] alone: the
    result is that of the tier [dispatch len] names, and the tier is the
    0-16 one exactly when len <= 16, the 17-32 one exactly when
    17 <= len <= 32, the 33-64 one exactly when 33 <= len <= 64, and the
    large-input engine exactly when len > 64. *)
Theorem CityHash64_dispatch fuel s len :
  CityHash64 fuel s len = run_tier (dispatch len) fuel s len /\
  (dispatch len = Tier0to16 <-> len <= 16) /\
  (dispatch len = Tier17to32 <-> 17 <= len <= 32) /\
  (dispatch len = Tier33to64 <-> 33 <= len <= 64) /\
  (dispatch len = TierLarge <-> 64 < len).
Proof.
  unfold CityHash64, dispatch.
  destruct (Z.leb_spec len 32);
    [destruct (Z.leb_spec len 16) | destruct (Z.leb_spec len 64)];
    cbn [run_tier];
    (split; [reflexivity |]);
    repeat apply conj;
    intros E; first [discriminate E | lia | reflexivity].
Qed.

(** C6: on the empty input [CityHash64] returns [k2], which is
    0x9ae16a3b2f90404f, whatever the memory holds, and reads nothing. *)
Theorem CityHash64_empty fuel s m :
  CityHash64 fuel s 0 m = (Some k2, []) /\ k2 = 0x9ae16a3b2f90404f.
Proof. split; reflexivity. Qed.

Lemma CityHash64_large_value m s len fuel :
  64 < len < 2 ^ 64 ->
  let st0 := value (CityHash64_seed s len) m in
  let n := Z.to_nat ((len - 1) / 64) in
  value (CityHash64_large fuel s len) m =
  if (n <=? fuel)%nat then Some (CityHash64_final (after_chunks n st0 m))
  else None.
Proof.
  intros Hlen st0 n. unfold CityHash64_large.
  rewrite value_bind, value_fmap. fold st0.
  assert (Hst : st_len st0 = 64 * ((len - 1) / 64)) by (apply seed_len; lia).
  assert (Hn : Z.of_nat n = (len - 1) / 64)
    by (unfold n; rewrite Z2Nat.id; dlia).
  destruct n as [| n'] eqn:En; [dlia |].
  destruct (Nat.leb_spec (S n') fuel).
  - rewrite (chunk_loop_enough m fuel n') by (try assumption; dlia).
    reflexivity.
  - rewrite (chunk_loop_short m fuel n') by (try assumption; dlia).
    reflexivity.
Qed.

(** A tier without a loop: its value is there whatever the fuel. *)
Ltac small_tier :=
  split; [| split];
  [ intros fuel _; apply value_fmap
  | intros fuel h' Hh; rewrite value_fmap in Hh; congruence
  | intros Hc; lia ].

(** C8: for every length 0 <= len (a [size_t]) [CityHash64] has exactly
    one result, an unsigned 64-bit value: floor((len-1)/64) loop passes
    are enough to produce it and no number of passes produces another;
    for len > 64 the loop counter starts at a positive multiple of 64,
    is 64 less after each pass, and is 0 after the last. *)
Theorem CityHash64_total m s len :
  0 <= len < 2 ^ 64 ->
  exists h,
    0 <= h < 2 ^ 64 /\
    (forall fuel, (Z.to_nat ((len - 1) / 64) <= fuel)%nat ->
       value (CityHash64 fuel s len) m = Some h) /\
    (forall fuel h', value (CityHash64 fuel s len) m = Some h' -> h' = h) /\
    (64 < len ->
     let st0 := value (CityHash64_seed s len) m in
     let n := Z.to_nat ((len - 1) / 64) in
     0 < st_len st0 /\ st_len st0 mod 64 = 0 /\
     (forall k, (k <= n)%nat ->
        st_len (after_chunks k st0 m) = st_len st0 - 64 * Z.of_nat k) /\
     st_len (after_chunks n st0 m) = 0).
Proof.
  intros Hlen. unfold CityHash64.
  destruct (Z.leb_spec len 32) as [H32 | H32];
    [destruct (Z.leb_spec len 16) as [H16 | H16]
    | destruct (Z.leb_spec len 64) as [H64 | H64]].
  - exists (value (HashLen0to16 s len) m).
    split; [apply HashLen0to16_u64 |]. small_tier.
  - exists (value (HashLen17to32 s len) m).
    split; [apply HashLen17to32_u64 |]. small_tier.
  - exists (value (HashLen33to64 s len) m).
    split; [apply HashLen33to64_u64 |]. small_tier.
  - pose proof (CityHash64_large_value m s len) as Hval.
    cbv zeta in Hval.
    set (st0 := value (CityHash64_seed s len) m) in *.
    set (n := Z.to_nat ((len - 1) / 64)) in *.
    assert (Hst : st_len st0 = 64 * ((len - 1) / 64)) by (apply seed_len; lia).
    assert (Hn : Z.of_nat n = (len - 1) / 64)
      by (unfold n; rewrite Z2Nat.id; dlia).
    assert (Hcur : forall k, (k <= n)%nat ->
              st_len (after_chunks k st0 m) = st_len st0 - 64 * Z.of_nat k).
    { intros k Hk. apply (after_chunks_cursor m k n st0); [lia | dlia | exact Hk]. }
    exists (CityHash64_final (after_chunks n st0 m)).
    split; [apply CityHash64_final_range |].
    split; [| split].
    + intros fuel Hfuel. rewrite Hval by lia.
      destruct (Nat.leb_spec n fuel); [reflexivity | lia].
    + intros fuel h' Hh. rewrite Hval in Hh by lia.
      destruct (n <=? fuel)%nat; congruence.
    + intros _. cbv zeta.
      split; [dlia |]. split; [rewrite Hst; dlia |]. split.
      * exact Hcur.
      * rewrite (Hcur n) by lia. lia.
Qed.

Lemma CityHash64_total_witness :
  0 <= 200 < 2 ^ 64 /\
  exists h, 0 <= h < 2 ^ 64 /\
    value (CityHash64 3 0 200) zero_mem = Some h.
Proof.
  split; [lia |].
  destruct (CityHash64_total zero_mem 0 200) as (h & Hr & Hv & _); [lia |].
  exists h. split; [exact Hr |]. apply Hv. vm_compute. lia.
Defined.

(** C9: the empty string is a proper prefix of the one-byte string 0x00
    and the two hash to different values. *)
Theorem hash64_length_sensitive :
  exists (b1 b2 : list byte) (h1 h2 : Z),
    b1 <> b2 /\ (exists t, b2 = b1 ++ t) /\
    (forall fuel, hash64 fuel b1 = Some h1) /\
    (forall fuel, hash64 fuel b2 = Some h2) /\
    h1 <> h2.
Proof.
  exists [], [x00], k2, (ShiftMix (1 *% k0) *% k2).
  split; [discriminate |].
  split; [exists [x00]; reflexivity |].
  split; [intros fuel; reflexivity |].
  split; [intros fuel; vm_compute; reflexivity |].
  vm_compute. discriminate.
Qed.

(** C10: the two overloads of [HashLen16] agree up to the order of the
    arguments and the constant: HashLen16(u, v), which is [Hash128to64]
    of the 128-bit value with high half [u] and low half [v], is
    HashLen16(v, u, 0x9ddfea08eb382d69). *)
Theorem HashLen16_overloads u v :
  Uint128High64 (uint128 u v) = u /\ Uint128Low64 (uint128 u v) = v /\
  HashLen16 u v = Hash128to64 (uint128 u v) /\
  HashLen16 u v = HashLen16_mul v u 0x9ddfea08eb382d69.
Proof. repeat split. Qed.

(** ** Rotate *)

Lemma u64_high_bits v i : 0 <= v < 2 ^ 64 -> 64 <= i -> Z.testbit v i = false.
Proof.
  intros Hv Hi.
  destruct (Z.eq_dec v 0) as [-> | Hnz]; [apply Z.bits_0 |].
  apply Z.bits_above_log2; [lia |].
  apply Z.log2_lt_pow2; [lia |].
  apply Z.lt_le_trans with (2 ^ 64); [lia |].
  apply Z.pow_le_mono_r; lia.
Qed.

Lemma u64_of_high_bits x :
  0 <= x -> (forall i, 64 <= i -> Z.testbit x i = false) -> x < 2 ^ 64.
Proof.
  intros Hx Hbits.
  assert (E : x = x mod 2 ^ 64).
  { apply Z.bits_inj'. intros i Hi.
    destruct (Z.lt_ge_cases i 64) as [Hlt | Hge].
    - rewrite Z.mod_pow2_bits_low by lia. reflexivity.
    - rewrite Z.mod_pow2_bits_high by lia. apply Hbits. exact Hge. }
  rewrite E. apply Z.mod_pos_bound. lia.
Qed.

(** Bit [i] of the rotation is bit [(i + shift) mod 64] of the value. *)
Lemma Rotate_testbit v shift i :
  0 <= v < 2 ^ 64 -> 0 <= shift < 64 -> 0 <= i < 64 ->
  Z.testbit (Rotate v shift) i = Z.testbit v ((i + shift) mod 64).
Proof.
  intros Hv Hs Hi. unfold Rotate.
  destruct (Z.eqb_spec shift 0) as [-> | Hnz].
  - rewrite Z.add_0_r, Z.mod_small by lia. reflexivity.
  - unfold shr64, shl64, wrap64.
    rewrite Z.lor_spec, Z.shiftr_spec by lia.
    rewrite Z.mod_pow2_bits_low by lia.
    rewrite Z.shiftl_spec by lia.
    destruct (Z.lt_ge_cases (i + shift) 64) as [Hlt | Hge].
    + rewrite (Z.testbit_neg_r v (i - (64 - shift))) by lia.
      rewrite orb_false_r, Z.mod_small by lia. reflexivity.
    + rewrite (u64_high_bits v (i + shift)) by lia.
      replace ((i + shift) mod 64) with (i - (64 - shift)) by dlia.
      reflexivity.
Qed.

Lemma Rotate_range v shift :
  0 <= v < 2 ^ 64 -> 0 <= shift < 64 -> 0 <= Rotate v shift < 2 ^ 64.
Proof.
  intros Hv Hs. unfold Rotate.
  destruct (Z.eqb_spec shift 0) as [-> | Hnz]; [exact Hv |].
  assert (Hhi : 0 <= v >>% shift) by (apply Z.shiftr_nonneg; lia).
  pose proof (wrap64_range (Z.shiftl v (64 - shift))) as Hlo.
  fold (shl64 v (64 - shift)) in Hlo.
  split; [apply Z.lor_nonneg; lia |].
  apply u64_of_high_bits; [apply Z.lor_nonneg; lia |].
  intros i Hi. rewrite Z.lor_spec.
  unfold shr64. rewrite Z.shiftr_spec by lia.
  rewrite (u64_high_bits v (i + shift)) by lia.
  rewrite (u64_high_bits (v <<% (64 - shift)) i) by lia.
  reflexivity.
Qed.

(** C7: for a 64-bit value [v] and 0 <= s < 64, [Rotate v s] is the
    right rotation of [v] by [s] bits: a 64-bit value whose bit [i] is
    bit [(i + s) mod 64] of [v]; no shift it evaluates is undefined;
    [Rotate v 0] is [v], and there the shift by 64 (which has no defined
    result) is not evaluated. *)
Theorem Rotate_is_right_rotation v s :
  0 <= v < 2 ^ 64 -> 0 <= s < 64 ->
  Rotate_checked v s = Some (Rotate v s) /\
  0 <= Rotate v s < 2 ^ 64 /\
  (forall i, 0 <= i < 64 ->
     Z.testbit (Rotate v s) i = Z.testbit v ((i + s) mod 64)) /\
  Rotate v 0 = v /\
  Rotate_checked v 0 = Some v /\
  shl64_checked v (64 - 0) = None.
Proof.
  intros Hv Hs.
  split.
  { unfold Rotate_checked, Rotate, shr64_checked, shl64_checked.
    destruct (Z.eqb_spec s 0) as [E | NE]; [reflexivity |].
    destruct (Z.leb_spec 0 s); [| lia].
    destruct (Z.ltb_spec s 64); [| lia].
    destruct (Z.leb_spec 0 (64 - s)); [| lia].
    destruct (Z.ltb_spec (64 - s) 64); [| lia].
    reflexivity. }
  split; [apply Rotate_range; assumption |].
  split; [intros i Hi; apply Rotate_testbit; assumption |].
  repeat apply conj; reflexivity.
Qed.

Lemma Rotate_is_right_rotation_witness :
  0 <= 0x8000000000000001 < 2 ^ 64 /\ 0 <= 1 < 64 /\
  Rotate_checked 0x8000000000000001 1 = Some (Rotate 0x8000000000000001 1).
Proof.
  split; [lia |]. split; [lia |].
  apply (Rotate_is_right_rotation 0x8000000000000001 1); lia.
Defined.

(** ** What the seeding phase depends on *)

Lemma load_le_agree lo hi m1 m2 n : forall p,
  agree lo hi m1 m2 -> lo <= p -> p + Z.of_nat n <= hi ->
  value (load_le n p) m1 = value (load_le n p) m2.
Proof.
  induction n as [| n IH]; intros p Hag Hlo Hhi; [reflexivity |].
  cbn [load_le]. rewrite !value_bind, !value_ret.
  rewrite (IH (p + 1)) by (try assumption; lia).
  unfold value at 1 3, read_u8. cbn [fst].
  rewrite (Hag p) by lia. reflexivity.
Qed.

Lemma Fetch64_agree lo hi m1 m2 p :
  agree lo hi m1 m2 -> lo <= p -> p + 8 <= hi ->
  value (Fetch64 p) m1 = value (Fetch64 p) m2.
Proof.
  intros Hag Hlo Hhi. unfold Fetch64, UNALIGNED_LOAD64.
  rewrite !value_fmap. f_equal.
  apply (load_le_agree lo hi); [exact Hag | lia | simpl; lia].
Qed.

Lemma seed_values s len m :
  let st := value (CityHash64_seed s len) m in
  st_x st = (value (Fetch64 (s + len - 40)) m *% k1) +% value (Fetch64 s) m /\
  st_y st = value (Fetch64 (s + len - 16)) m +% value (Fetch64 (s + len - 56)) m /\
  st_z st = HashLen16 (value (Fetch64 (s + len - 48)) m +% len)
                      (value (Fetch64 (s + len - 24)) m).
Proof.
  cbv zeta. unfold CityHash64_seed. cbv zeta.
  repeat rewrite value_bind. rewrite value_ret. cbn [st_x st_y st_z].
  repeat split.
Qed.

(** C4, as amended: for 64 < len and two memories that agree on the last
    56 bytes of the buffer, the seeding phase gives the same [y] and the
    same [z]; the [x] it gives is [xt * k1 + Fetch64(s)] in each run, for
    one [xt] common to both: [x] is the same as soon as the two memories
    also agree on the first 8 bytes. *)
Theorem seed_depends_on_tail m1 m2 s len :
  64 < len < 2 ^ 64 ->
  agree (s + len - 56) (s + len) m1 m2 ->
  let st1 := value (CityHash64_seed s len) m1 in
  let st2 := value (CityHash64_seed s len) m2 in
  st_y st1 = st_y st2 /\
  st_z st1 = st_z st2 /\
  (exists xt,
     st_x st1 = (xt *% k1) +% value (Fetch64 s) m1 /\
     st_x st2 = (xt *% k1) +% value (Fetch64 s) m2) /\
  (agree s (s + 8) m1 m2 -> st_x st1 = st_x st2).
Proof.
  intros Hlen Hag st1 st2.
  destruct (seed_values s len m1) as (Hx1 & Hy1 & Hz1).
  destruct (seed_values s len m2) as (Hx2 & Hy2 & Hz2).
  fold st1 in Hx1, Hy1, Hz1. fold st2 in Hx2, Hy2, Hz2.
  assert (Htail : forall d, 8 <= d <= 56 ->
            value (Fetch64 (s + len - d)) m1 = value (Fetch64 (s + len - d)) m2).
  { intros d Hd. apply (Fetch64_agree (s + len - 56) (s + len)); [exact Hag | lia | lia]. }
  split; [rewrite Hy1, Hy2, (Htail 16), (Htail 56) by lia; reflexivity |].
  split; [rewrite Hz1, Hz2, (Htail 48), (Htail 24) by lia; reflexivity |].
  split.
  - exists (value (Fetch64 (s + len - 40)) m1).
    split; [exact Hx1 |]. rewrite Hx2, <- (Htail 40) by lia. reflexivity.
  - intros Hfront. rewrite Hx1, Hx2, (Htail 40) by lia.
    rewrite (Fetch64_agree s (s + 8) m1 m2 s Hfront) by lia. reflexivity.
Qed.

Lemma agree_zero_tail lo hi b :
  1 <= lo -> agree lo hi zero_mem (mem_of [b]).
Proof.
  intros Hlo p Hp. unfold zero_mem, mem_of.
  destruct (Z.ltb_spec p 0); [reflexivity |].
  destruct (Z.to_nat p) as [| k] eqn:E; [lia |].
  destruct k; reflexivity.
Qed.

Lemma seed_depends_on_tail_witness :
  64 < 65 < 2 ^ 64 /\
  agree (0 + 65 - 56) (0 + 65) zero_mem (mem_of [x01]) /\
  st_y (value (CityHash64_seed 0 65) zero_mem) =
  st_y (value (CityHash64_seed 0 65) (mem_of [x01])).
Proof.
  split; [lia |].
  split; [apply agree_zero_tail; lia |].
  apply (seed_depends_on_tail zero_mem (mem_of [x01]) 0 65);
    [lia | apply agree_zero_tail; lia].
Defined.

(** C4, as stated, fails for [x]: at len = 65 the two buffers below agree
    on their last 56 bytes (and on all but the first byte), and the
    seeding phase leaves different values of [x]. *)
Lemma seed_x_depends_on_front :
  64 < 65 < 2 ^ 64 /\
  agree (0 + 65 - 56) (0 + 65) zero_mem (mem_of [x01]) /\
  st_x (value (CityHash64_seed 0 65) zero_mem) <>
  st_x (value (CityHash64_seed 0 65) (mem_of [x01])).
Proof.
  split; [lia |].
  split; [apply agree_zero_tail; lia |].
  vm_compute. discriminate.
Qed.

(** ** LoadBytes *)

Lemma byte_val_range b : 0 <= byte_val b < 256.
Proof.
  unfold byte_val. pose proof (Byte.to_N_bounded b) as H.
  split; [apply N2Z.is_nonneg |].
  change 256 with (Z.succ (Z.of_N 255)). apply Zle_lt_succ, N2Z.inj_le, H.
Qed.

Lemma packed_le_range m buf n : 0 <= packed_le m buf n < 2 ^ (8 * Z.of_nat n).
Proof.
  induction n as [| n IH]; [simpl; lia |].
  cbn [packed_le]. pose proof (byte_val_range (m (buf + Z.of_nat n))) as Hb.
  replace (8 * Z.of_nat (S n)) with (8 * Z.of_nat n + 8) by lia.
  rewrite Z.pow_add_r by lia. change (2 ^ 8) with 256.
  assert (0 < 2 ^ (8 * Z.of_nat n)) by (apply Z.pow_pos_nonneg; lia).
  nia.
Qed.

(** [(v << 8) | c] is [256 v + c] when [c] is a byte and nothing wraps. *)
Lemma shl8_lor_byte v c :
  0 <= v -> v * 256 < 2 ^ 64 -> 0 <= c < 256 ->
  (v <<% 8) |% wrap64 c = v * 256 + c.
Proof.
  intros Hv Hv' Hc. unfold shl64.
  rewrite Z.shiftl_mul_pow2 by lia. change (2 ^ 8) with 256.
  rewrite !wrap64_small by lia.
  assert (Hland : Z.land (v * 256) c = 0); [| rewrite <- (Z.lxor_lor _ _ Hland);
    symmetry; apply Z.add_nocarry_lxor, Hland].
  apply Z.bits_inj'. intros i Hi. rewrite Z.land_spec, Z.bits_0.
  destruct (Z.lt_ge_cases i 8) as [Hlt | Hge].
  - change 256 with (2 ^ 8). rewrite Z.mul_pow2_bits_low by lia. reflexivity.
  - rewrite (Z.bits_above_log2 c i); [apply andb_false_r | lia |].
    destruct (Z.eq_dec c 0) as [-> | Hnz]; [simpl; lia |].
    apply Z.lt_le_trans with 8; [| exact Hge].
    apply Z.log2_lt_pow2; [lia |]. change (2 ^ 8) with 256. lia.
Qed.

Section LoadBytesFacts.
Variable char_signed : bool.
Variable m : mem.

Lemma LoadBytes_loop_value buf len val :
  value (LoadBytes_loop char_signed buf len val) m =
  let val' := (val <<% 8) |% wrap64 (char_to_int char_signed (m (buf + len))) in
  if Z_le_dec 0 (len - 1)
  then value (LoadBytes_loop char_signed buf (len - 1) val') m
  else val'.
Proof.
  rewrite LoadBytes_loop_equation_1 at 1. rewrite value_bind. cbv zeta.
  destruct (Z_le_dec 0 (len - 1)); reflexivity.
Qed.

(** The loop entered at index [n] with the bytes packed so far in [val]:
    when no [char] it reads is negative, it appends the bytes at
    [buf[0..n]] below [val]. *)
Lemma LoadBytes_loop_packs buf : forall (n : nat) val,
  (forall i, 0 <= i <= Z.of_nat n ->
     char_to_int char_signed (m (buf + i)) = byte_val (m (buf + i))) ->
  (n <= 7)%nat -> 0 <= val < 2 ^ (8 * (7 - Z.of_nat n)) ->
  value (LoadBytes_loop char_signed buf (Z.of_nat n) val) m =
  val * 2 ^ (8 * Z.of_nat (S n)) + packed_le m buf (S n).
Proof.
  induction n as [| n IH]; intros val Hch Hn Hval;
    rewrite LoadBytes_loop_value; cbv zeta;
    rewrite (Hch (Z.of_nat _)) by lia;
    match goal with
    | |- context [byte_val ?b] => pose proof (byte_val_range b) as Hb
    end.
  - change (2 ^ (8 * (7 - Z.of_nat 0))) with (2 ^ 56) in Hval.
    rewrite shl8_lor_byte by (try apply byte_val_range; lia).
    destruct (Z_le_dec 0 (Z.of_nat 0 - 1)) as [Hle | _]; [simpl in Hle; lia |].
    cbn [packed_le]. change (2 ^ (8 * Z.of_nat 1)) with 256.
    change (2 ^ (8 * Z.of_nat 0)) with 1. lia.
  - assert (Hp : 2 ^ (8 * (7 - Z.of_nat n)) = 256 * 2 ^ (8 * (7 - Z.of_nat (S n)))).
    { replace (8 * (7 - Z.of_nat n)) with (8 * (7 - Z.of_nat (S n)) + 8) by lia.
      rewrite Z.pow_add_r by lia. change (2 ^ 8) with 256. lia. }
    assert (Hq : 2 ^ (8 * (7 - Z.of_nat (S n))) <= 2 ^ 48)
      by (apply Z.pow_le_mono_r; lia).
    rewrite shl8_lor_byte by (try apply byte_val_range; lia).
    destruct (Z_le_dec 0 (Z.of_nat (S n) - 1)) as [_ | Hgt]; [| lia].
    replace (Z.of_nat (S n) - 1) with (Z.of_nat n) by lia.
    rewrite IH; [| intros i Hi; apply Hch; lia | lia | lia].
    cbn [packed_le].
    replace (8 * Z.of_nat (S (S n))) with (8 * Z.of_nat (S n) + 8) by lia.
    rewrite Z.pow_add_r by lia. change (2 ^ 8) with 256. ring.
Qed.

(** On bytes that [char] does not make negative (all of them where
    [char] is unsigned, those below 0x80 where it is signed) [LoadBytes]
    packs little-endian, with the bits from [8 * len] on zero. *)
Lemma LoadBytes_packs buf len :
  1 <= len <= 8 ->
  (forall i, 0 <= i < len ->
     char_to_int char_signed (m (buf + i)) = byte_val (m (buf + i))) ->
  value (LoadBytes char_signed buf len) m = packed_le m buf (Z.to_nat len) /\
  0 <= value (LoadBytes char_signed buf len) m < 2 ^ (8 * len).
Proof.
  intros Hlen Hch. unfold LoadBytes. cbv zeta.
  assert (E : value (LoadBytes_loop char_signed buf (len - 1) 0) m =
              packed_le m buf (Z.to_nat len)).
  { replace (len - 1) with (Z.of_nat (Z.to_nat (len - 1))) by lia.
    rewrite LoadBytes_loop_packs.
    - replace (S (Z.to_nat (len - 1))) with (Z.to_nat len) by lia. lia.
    - intros i Hi. apply Hch. lia.
    - lia.
    - split; [lia |]. apply Z.pow_pos_nonneg; lia. }
  rewrite E. split; [reflexivity |].
  pose proof (packed_le_range m buf (Z.to_nat len)) as Hr.
  rewrite Z2Nat.id in Hr by lia. exact Hr.
Qed.
End LoadBytesFacts.

Lemma LoadBytes_unsigned_char m buf len :
  1 <= len <= 8 ->
  value (LoadBytes false buf len) m = packed_le m buf (Z.to_nat len).
Proof.
  intros Hlen. apply LoadBytes_packs; [exact Hlen |].
  intros i _. reflexivity.
Qed.

(** C2, where the code departs from it: with a signed [char], on the
    one-byte buffer 0x80 [LoadBytes(buf, 1)] is 0xffffffffffffff80, not
    the packed value 0x80: the byte is sign-extended and the bits above
    position 8 are set. *)
Theorem LoadBytes_sign_extends :
  value (LoadBytes true 0 1) (mem_of [x80]) = 0xffffffffffffff80 /\
  packed_le (mem_of [x80]) 0 1 = 0x80 /\
  Z.testbit (value (LoadBytes true 0 1) (mem_of [x80])) 8 = true.
Proof. repeat apply conj; vm_compute; reflexivity. Qed.

(** * Further properties of the mixing primitives *)

Lemma ShiftMix_range v : 0 <= v < 2 ^ 64 -> 0 <= ShiftMix v < 2 ^ 64.
Proof.
  intros Hv. unfold ShiftMix, shr64.
  assert (Hs : 0 <= Z.shiftr v 47) by (apply Z.shiftr_nonneg; lia).
  assert (Hnn : 0 <= Z.lxor v (Z.shiftr v 47)) by (apply Z.lxor_nonneg; lia).
  split; [exact Hnn |].
  apply u64_of_high_bits; [exact Hnn |].
  intros i Hi. rewrite Z.lxor_spec, Z.shiftr_spec by lia.
  rewrite !(u64_high_bits v) by lia. reflexivity.
Qed.

(** X1: on 64-bit values [ShiftMix] undoes itself, so it is one-to-one:
    nothing is lost in the step [val ^ (val >> 47)]. *)
Theorem ShiftMix_involution v w :
  0 <= v < 2 ^ 64 -> 0 <= w < 2 ^ 64 ->
  ShiftMix (ShiftMix v) = v /\
  0 <= ShiftMix v < 2 ^ 64 /\
  (ShiftMix v = ShiftMix w -> v = w).
Proof.
  intros Hv Hw.
  assert (Hinv : forall u, 0 <= u < 2 ^ 64 -> ShiftMix (ShiftMix u) = u).
  { intros u Hu. unfold ShiftMix, shr64.
    apply Z.bits_inj'. intros i Hi.
    rewrite !Z.lxor_spec, !Z.shiftr_spec, Z.lxor_spec, Z.shiftr_spec by lia.
    rewrite (u64_high_bits u (i + 47 + 47)) by lia.
    destruct (Z.testbit u i), (Z.testbit u (i + 47)); reflexivity. }
  split; [apply Hinv, Hv |].
  split; [apply ShiftMix_range, Hv |].
  intros E. rewrite <- (Hinv v Hv), <- (Hinv w Hw), E. reflexivity.
Qed.

Lemma ShiftMix_involution_witness :
  0 <= k0 < 2 ^ 64 /\ ShiftMix (ShiftMix k0) = k0.
Proof.
  split; [unfold k0; lia |].
  apply (ShiftMix_involution k0 k0); unfold k0; lia.
Defined.

(** X2: rotations compose by adding the amounts modulo 64, and a rotation
    by [s] is undone by the rotation by [64 - s]. *)
Theorem Rotate_compose v a b :
  0 <= v < 2 ^ 64 -> 0 <= a < 64 -> 0 <= b < 64 ->
  Rotate (Rotate v a) b = Rotate v ((a + b) mod 64) /\
  Rotate (Rotate v a) ((64 - a) mod 64) = v.
Proof.
  intros Hv Ha Hb.
  assert (Hcomp : forall c, 0 <= c < 64 ->
            Rotate (Rotate v a) c = Rotate v ((a + c) mod 64)).
  { intros c Hc.
    assert (Hm : 0 <= (a + c) mod 64 < 64) by (apply Z.mod_pos_bound; lia).
    pose proof (Rotate_range v a Hv Ha) as Hra.
    pose proof (Rotate_range (Rotate v a) c Hra Hc) as Hl.
    pose proof (Rotate_range v ((a + c) mod 64) Hv Hm) as Hr.
    apply Z.bits_inj'. intros i Hi.
    destruct (Z.lt_ge_cases i 64) as [Hlt | Hge].
    - rewrite !Rotate_testbit by (try assumption; try lia; apply Z.mod_pos_bound; lia).
      f_equal. rewrite Z.add_mod_idemp_l, Z.add_mod_idemp_r by lia.
      f_equal. lia.
    - rewrite !u64_high_bits by assumption. reflexivity. }
  split; [apply Hcomp, Hb |].
  rewrite Hcomp by (apply Z.mod_pos_bound; lia).
  rewrite Z.add_mod_idemp_r by lia.
  replace (a + (64 - a)) with 64 by lia. reflexivity.
Qed.

Lemma Rotate_compose_witness :
  0 <= k1 < 2 ^ 64 /\ 0 <= 37 < 64 /\ 0 <= 42 < 64 /\
  Rotate (Rotate k1 37) 42 = Rotate k1 ((37 + 42) mod 64).
Proof.
  split; [unfold k1; lia |]. split; [lia |]. split; [lia |].
  apply (Rotate_compose k1 37 42); unfold k1; lia.
Defined.

(** X3: the first word of the weak hash is the wrapping sum of the seed
    [a] and the four words: it does not depend on the seed [b], nor on
    the order of the words. *)
Theorem WeakHashLen32WithSeeds_first w x y z a b :
  fst (WeakHashLen32WithSeeds w x y z a b) = wrap64 (a + w + x + y + z) /\
  (forall b', fst (WeakHashLen32WithSeeds w x y z a b') =
              fst (WeakHashLen32WithSeeds w x y z a b)) /\
  fst (WeakHashLen32WithSeeds x w z y a b) =
  fst (WeakHashLen32WithSeeds w x y z a b).
Proof.
  assert (E : forall w x y z b,
            fst (WeakHashLen32WithSeeds w x y z a b) = wrap64 (a + w + x + y + z)).
  { intros. unfold WeakHashLen32WithSeeds. cbn [fst].
    unfold add64, wrap64.
    repeat (rewrite <- ?Z.add_assoc; rewrite Z.add_mod_idemp_l by lia).
    f_equal. lia. }
  split; [apply E |].
  split; [intros b'; rewrite !E; reflexivity |].
  rewrite !E. f_equal. lia.
Qed.

(** * Further properties of LoadBytes *)

Lemma char_to_int_nonnegative cs b :
  cs = false \/ byte_val b < 128 -> char_to_int cs b = byte_val b.
Proof.
  intros H. unfold char_to_int. cbv zeta.
  destruct cs; [| reflexivity].
  destruct H as [H | H]; [discriminate |].
  destruct (Z.leb_spec 128 (byte_val b)); [lia | reflexivity].
Qed.

(** X4: for 1 <= len <= 8, where [char] is unsigned, or where every byte
    of the buffer is below 0x80, [LoadBytes] returns the [len] bytes
    packed little-endian, a value below [2^(8*len)]. *)
Theorem LoadBytes_little_endian cs m buf len :
  1 <= len <= 8 ->
  (cs = false \/ forall i, 0 <= i < len -> byte_val (m (buf + i)) < 128) ->
  value (LoadBytes cs buf len) m = packed_le m buf (Z.to_nat len) /\
  0 <= value (LoadBytes cs buf len) m < 2 ^ (8 * len).
Proof.
  intros Hlen Hch. apply LoadBytes_packs; [exact Hlen |].
  intros i Hi. apply char_to_int_nonnegative.
  destruct Hch as [-> | Hlow]; [left; reflexivity | right; apply Hlow, Hi].
Qed.

Lemma LoadBytes_little_endian_witness :
  1 <= 3 <= 8 /\
  value (LoadBytes false 0 3) (mem_of [x61; xff; x80]) =
  packed_le (mem_of [x61; xff; x80]) 0 (Z.to_nat 3).
Proof.
  split; [lia |].
  apply (LoadBytes_little_endian false (mem_of [x61; xff; x80]) 0 3);
    [lia | left; reflexivity].
Defined.

(** Or-ing a sign-extended negative [char] erases what was packed. *)
Lemma lor_sign_extended val c :
  128 <= c < 256 -> (val <<% 8) |% wrap64 (c - 256) = wrap64 (c - 256).
Proof.
  intros Hc. unfold shl64, wrap64.
  apply Z.bits_inj'. intros i Hi. rewrite Z.lor_spec.
  destruct (Z.lt_ge_cases i 64) as [Hlt | Hge].
  - rewrite !Z.mod_pow2_bits_low by lia.
    destruct (Z.lt_ge_cases i 8) as [Hlow | Hhigh].
    + rewrite Z.shiftl_spec_low by lia. reflexivity.
    + rewrite (Z.bits_above_log2_neg (c - 256) i); [apply orb_true_r | lia |].
      apply Z.lt_le_trans with 8; [| exact Hhigh].
      destruct (Z.eq_dec (Z.pred (- (c - 256))) 0) as [-> | Hnz]; [simpl; lia |].
      apply Z.log2_lt_pow2; [lia |]. change (2 ^ 8) with 256. lia.
  - rewrite !Z.mod_pow2_bits_high by lia. reflexivity.
Qed.

Section LoadBytesRuns.
Variable cs : bool.
Variables m1 m2 : mem.
Variable buf : Z.

(** From the same packed value, on the same bytes, the loop gives the
    same result. *)
Lemma LoadBytes_loop_same_bytes : forall (n : nat) val,
  (forall i, 0 <= i <= Z.of_nat n -> m1 (buf + i) = m2 (buf + i)) ->
  value (LoadBytes_loop cs buf (Z.of_nat n) val) m1 =
  value (LoadBytes_loop cs buf (Z.of_nat n) val) m2.
Proof.
  induction n as [| n IH]; intros val Hag;
    rewrite (LoadBytes_loop_value cs m1), (LoadBytes_loop_value cs m2);
    cbv zeta; rewrite (Hag (Z.of_nat _)) by lia;
    destruct (Z_le_dec 0 (Z.of_nat _ - 1)) as [Hle | Hgt];
    try reflexivity; try lia.
  replace (Z.of_nat (S n) - 1) with (Z.of_nat n) by lia.
  apply IH. intros i Hi. apply Hag. lia.
Qed.
End LoadBytesRuns.

Lemma LoadBytes_loop_erased m1 m2 buf (j : nat) :
  128 <= byte_val (m1 (buf + Z.of_nat j)) ->
  (forall i, 0 <= i <= Z.of_nat j -> m1 (buf + i) = m2 (buf + i)) ->
  forall (n : nat) val1 val2, (j <= n)%nat ->
  value (LoadBytes_loop true buf (Z.of_nat n) val1) m1 =
  value (LoadBytes_loop true buf (Z.of_nat n) val2) m2.
Proof.
  intros Hneg Hag. induction n as [| n IH]; intros val1 val2 Hj.
  - assert (j = 0%nat) by lia. subst j.
    rewrite (LoadBytes_loop_value true m1), (LoadBytes_loop_value true m2).
    cbv zeta. rewrite <- (Hag (Z.of_nat 0)) by lia.
    destruct (Z_le_dec 0 (Z.of_nat 0 - 1)) as [Hle | _]; [simpl in Hle; lia |].
    pose proof (byte_val_range (m1 (buf + Z.of_nat 0))) as Hb.
    unfold char_to_int. cbv zeta.
    destruct (Z.leb_spec 128 (byte_val (m1 (buf + Z.of_nat 0)))); [| lia].
    cbn [andb]. rewrite !lor_sign_extended by lia. reflexivity.
  - rewrite (LoadBytes_loop_value true m1), (LoadBytes_loop_value true m2).
    cbv zeta.
    destruct (Z_le_dec 0 (Z.of_nat (S n) - 1)) as [_ | Hgt]; [| lia].
    replace (Z.of_nat (S n) - 1) with (Z.of_nat n) by lia.
    destruct (Nat.eq_dec j (S n)) as [-> | Hne].
    + rewrite <- (Hag (Z.of_nat (S n))) by lia.
      pose proof (byte_val_range (m1 (buf + Z.of_nat (S n)))) as Hb.
      unfold char_to_int. cbv zeta.
      destruct (Z.leb_spec 128 (byte_val (m1 (buf + Z.of_nat (S n))))); [| lia].
      cbn [andb]. rewrite !lor_sign_extended by lia.
      apply LoadBytes_loop_same_bytes. intros i Hi. apply Hag. lia.
    + apply IH. lia.
Qed.

(** X5: where [char] is signed, a byte of 0x80 or more at index [j] erases
    every byte above it: two buffers that hold the same bytes at the
    indices 0 to [j] get the same result from [LoadBytes], whatever they
    hold at the indices [j + 1] to [len - 1]. *)
Theorem LoadBytes_signed_drops_high_bytes m1 m2 buf len j :
  0 <= j < len ->
  128 <= byte_val (m1 (buf + j)) ->
  (forall i, 0 <= i <= j -> m1 (buf + i) = m2 (buf + i)) ->
  value (LoadBytes true buf len) m1 = value (LoadBytes true buf len) m2.
Proof.
  intros Hj Hneg Hag. unfold LoadBytes. cbv zeta.
  replace (len - 1) with (Z.of_nat (Z.to_nat (len - 1))) by lia.
  apply (LoadBytes_loop_erased m1 m2 buf (Z.to_nat j)).
  - rewrite Z2Nat.id by lia. exact Hneg.
  - intros i Hi. apply Hag. lia.
  - lia.
Qed.

Lemma LoadBytes_signed_drops_high_bytes_witness :
  0 <= 1 < 3 /\
  128 <= byte_val (mem_of [x61; x80; x63] (0 + 1)) /\
  value (LoadBytes true 0 3) (mem_of [x61; x80; x63]) =
  value (LoadBytes true 0 3) (mem_of [x61; x80; x64]).
Proof.
  split; [lia |]. split; [vm_compute; discriminate |].
  apply (LoadBytes_signed_drops_high_bytes _ _ 0 3 1); [lia | vm_compute; discriminate |].
  intros i Hi.
  assert (Hi' : i = 0 \/ i = 1) by lia.
  destruct Hi' as [-> | ->]; reflexivity.
Defined.

Lemma LoadBytes_loop_trace cs m buf len val :
  trace (LoadBytes_loop cs buf len val) m =
  (buf + len) ::
  (if Z_le_dec 0 (len - 1)
   then trace (LoadBytes_loop cs buf (len - 1)
                 ((val <<% 8) |% wrap64 (char_to_int cs (m (buf + len))))) m
   else []).
Proof.
  rewrite LoadBytes_loop_equation_1 at 1. rewrite trace_bind. cbv zeta.
  destruct (Z_le_dec 0 (len - 1)); reflexivity.
Qed.

Lemma LoadBytes_trace cs m buf len :
  1 <= len ->
  trace (LoadBytes cs buf len) m =
  rev (map (fun i => buf + Z.of_nat i) (seq 0 (Z.to_nat len))).
Proof.
  intros Hlen. unfold LoadBytes. cbv zeta.
  replace (Z.to_nat len) with (S (Z.to_nat (len - 1))) by lia.
  replace (len - 1) with (Z.of_nat (Z.to_nat (len - 1))) at 1 by lia.
  generalize (Z.to_nat (len - 1)) as n. generalize 0 as val.
  intros val n. revert val.
  induction n as [| n IH]; intros val; rewrite LoadBytes_loop_trace.
  - destruct (Z_le_dec 0 (Z.of_nat 0 - 1)) as [Hle | _]; [simpl in Hle; lia |].
    reflexivity.
  - destruct (Z_le_dec 0 (Z.of_nat (S n) - 1)) as [_ | Hgt]; [| lia].
    replace (Z.of_nat (S n) - 1) with (Z.of_nat n) by lia.
    rewrite IH. rewrite (seq_S (S n)), map_app, rev_app_distr.
    reflexivity.
Qed.

Lemma reads_in_LoadBytes cs lo hi buf len :
  1 <= len -> lo <= buf -> buf + len <= hi ->
  reads_in lo hi (LoadBytes cs buf len).
Proof.
  intros Hlen Hlo Hhi m. rewrite LoadBytes_trace by exact Hlen.
  apply Forall_forall. intros q Hq.
  apply in_rev, in_map_iff in Hq. destruct Hq as (i & <- & Hi).
  apply in_seq in Hi. lia.
Qed.

(** X6: for 1 <= len <= 8, [LoadBytes] reads each of the bytes [buf[0]]
    to [buf[len - 1]] once, from the last to the first, and nothing
    else. *)
Theorem LoadBytes_reads cs m buf len :
  1 <= len <= 8 ->
  trace (LoadBytes cs buf len) m =
    rev (map (fun i => buf + Z.of_nat i) (seq 0 (Z.to_nat len))) /\
  Forall (fun q => buf <= q < buf + len) (trace (LoadBytes cs buf len) m) /\
  NoDup (trace (LoadBytes cs buf len) m).
Proof.
  intros Hlen. split; [apply LoadBytes_trace; lia |].
  split; [apply reads_in_LoadBytes; lia |].
  rewrite LoadBytes_trace by lia.
  apply NoDup_rev, Injective_map_NoDup; [| apply seq_NoDup].
  intros i j E. lia.
Qed.

Lemma LoadBytes_reads_witness :
  1 <= 3 <= 8 /\ trace (LoadBytes true 100 3) zero_mem = [102; 101; 100].
Proof.
  split; [lia |].
  apply (LoadBytes_reads true zero_mem 100 3). lia.
Defined.

(** X7: for -2^31 + 2 <= len <= 0 (an [int] that [DCHECK_LT(len, 9)]
    lets through and for which neither [--len] overflows) [LoadBytes]
    makes one pass through its do-while loop: it reads the single byte
    [buf[len - 1]], which lies before the buffer, and returns it converted
    to [uint64]. *)
Theorem LoadBytes_nonpositive_len cs m buf len :
  - 2 ^ 31 + 2 <= len <= 0 ->
  LoadBytes cs buf len m =
  (wrap64 (char_to_int cs (m (buf + (len - 1)))), [buf + (len - 1)]).
Proof.
  intros Hlen. unfold LoadBytes. cbv zeta.
  rewrite (surjective_pairing (LoadBytes_loop cs buf (len - 1) 0 m)).
  fold (value (LoadBytes_loop cs buf (len - 1) 0) m).
  fold (trace (LoadBytes_loop cs buf (len - 1) 0) m).
  rewrite LoadBytes_loop_value, LoadBytes_loop_trace. cbv zeta.
  destruct (Z_le_dec 0 (len - 1 - 1)) as [Hle | _]; [lia |].
  reflexivity.
Qed.

Lemma LoadBytes_nonpositive_len_witness :
  - 2 ^ 31 + 2 <= 0 <= 0 /\ trace (LoadBytes true 100 0) zero_mem = [99].
Proof.
  split; [lia |].
  unfold trace. rewrite (LoadBytes_nonpositive_len true zero_mem 100 0); [reflexivity | lia].
Defined.

(** * MurmurHash64 *)

(** [n & ~0x7] clears the three low bits; [n & 0x7] keeps them. *)
Lemma land_not7 n :
  0 <= n < 2 ^ 64 -> Z.land n (wrap64 (Z.lnot 7)) = 8 * (n / 8).
Proof.
  intros Hn.
  assert (Hmask : wrap64 (Z.lnot 7) = Z.shiftl (Z.ones 61) 3) by reflexivity.
  rewrite Hmask.
  replace (8 * (n / 8)) with (Z.shiftl (Z.shiftr n 3) 3)
    by (rewrite Z.shiftl_mul_pow2, Z.shiftr_div_pow2 by lia;
        change (2 ^ 3) with 8; lia).
  apply Z.bits_inj'. intros i Hi.
  rewrite Z.land_spec, !Z.shiftl_spec by lia.
  destruct (Z.lt_ge_cases i 3) as [Hlt | Hge].
  - rewrite !(Z.testbit_neg_r _ (i - 3)) by lia. apply andb_false_r.
  - rewrite Z.shiftr_spec by lia.
    replace (i - 3 + 3) with i by lia.
    destruct (Z.lt_ge_cases i 64) as [Hlt | Hge64].
    + rewrite Z.ones_spec_low by lia. apply andb_true_r.
    + rewrite Z.ones_spec_high by lia.
      rewrite (u64_high_bits n i) by lia. reflexivity.
Qed.

Lemma land_7 n : 0 <= n -> Z.land n 7 = n mod 8.
Proof.
  intros Hn. change 7 with (Z.ones 3). rewrite Z.land_ones by lia.
  reflexivity.
Qed.

Lemma to_int32_small z : 0 <= z < 2 ^ 31 -> to_int32 z = z.
Proof.
  intros Hz. unfold to_int32. cbv zeta.
  rewrite Z.mod_small by lia.
  destruct (Z.ltb_spec z (2 ^ 31)); [reflexivity | lia].
Qed.

Lemma MurmurHash64_loop_done fuel p hash m :
  MurmurHash64_loop fuel p p hash m = (Some hash, []).
Proof. destruct fuel; cbn [MurmurHash64_loop]; rewrite Z.eqb_refl; reflexivity. Qed.

Lemma MurmurHash64_loop_step fuel p e hash :
  p <> e ->
  MurmurHash64_loop (S fuel) p e hash =
  (w <- LittleEndian_Load64 p ;;
   MurmurHash64_loop fuel (p + 8) e
     ((hash ^% (ShiftMix (w *% Murmur_mul) *% Murmur_mul)) *% Murmur_mul)).
Proof.
  intros Hne. cbn [MurmurHash64_loop].
  destruct (Z.eqb_spec p e); [contradiction | reflexivity].
Qed.

Lemma MurmurHash64_loop_out_of_fuel p e hash m :
  p <> e -> MurmurHash64_loop 0 p e hash m = (None, []).
Proof.
  intros Hne. cbn [MurmurHash64_loop].
  destruct (Z.eqb_spec p e); [contradiction | reflexivity].
Qed.

Section MurmurLoop.
Variable m : mem.

(** With [k] words between [p] and [end], [k] passes are enough and
    fewer are not. *)
Lemma MurmurHash64_loop_enough : forall (k : nat) p hash,
  0 <= hash < 2 ^ 64 ->
  exists h, 0 <= h < 2 ^ 64 /\
    forall fuel, (k <= fuel)%nat ->
      value (MurmurHash64_loop fuel p (p + 8 * Z.of_nat k) hash) m = Some h.
Proof.
  induction k as [| k IH]; intros p hash Hh.
  - exists hash. split; [exact Hh |]. intros fuel _.
    replace (p + 8 * Z.of_nat 0) with p by lia.
    unfold value. rewrite MurmurHash64_loop_done. reflexivity.
  - destruct (IH (p + 8)
               ((hash ^% (ShiftMix (value (LittleEndian_Load64 p) m *% Murmur_mul)
                          *% Murmur_mul)) *% Murmur_mul))
      as (h & Hr & Hv); [apply mul64_range |].
    exists h. split; [exact Hr |]. intros fuel Hfuel.
    destruct fuel as [| fuel]; [lia |].
    rewrite MurmurHash64_loop_step by lia. rewrite value_bind.
    replace (p + 8 * Z.of_nat (S k)) with (p + 8 + 8 * Z.of_nat k) by lia.
    apply Hv. lia.
Qed.

Lemma MurmurHash64_loop_short : forall fuel (k : nat) p hash,
  (fuel < k)%nat ->
  value (MurmurHash64_loop fuel p (p + 8 * Z.of_nat k) hash) m = None.
Proof.
  induction fuel as [| fuel IH]; intros k p hash Hk.
  - unfold value. rewrite MurmurHash64_loop_out_of_fuel by lia. reflexivity.
  - destruct k as [| k]; [lia |].
    rewrite MurmurHash64_loop_step by lia. rewrite value_bind.
    replace (p + 8 * Z.of_nat (S k)) with (p + 8 + 8 * Z.of_nat k) by lia.
    apply IH. lia.
Qed.

(** When [end] lies before [p] the test [p != end] stays true: the loop
    never leaves, and reads on past any bound. *)
Lemma MurmurHash64_loop_runaway e : forall fuel p hash,
  e < p ->
  value (MurmurHash64_loop fuel p e hash) m = None /\
  forall q, p <= q < p + 8 * Z.of_nat fuel ->
    In q (trace (MurmurHash64_loop fuel p e hash) m).
Proof.
  induction fuel as [| fuel IH]; intros p hash Hlt.
  - unfold value, trace. rewrite MurmurHash64_loop_out_of_fuel by lia.
    split; [reflexivity | intros q Hq; lia].
  - rewrite MurmurHash64_loop_step by lia.
    rewrite value_bind, trace_bind.
    match goal with
    | |- context [MurmurHash64_loop fuel (p + 8) e ?h] =>
        destruct (IH (p + 8) h) as [Hv Hin]; [lia |]
    end.
    split; [exact Hv |].
    intros q Hq. apply in_or_app.
    destruct (Z.lt_ge_cases q (p + 8)) as [Hlow | Hhigh].
    + left. cbn.
      assert (Hc : q = p \/ q = p + 1 \/ q = p + 1 + 1 \/ q = p + 1 + 1 + 1 \/
                   q = p + 1 + 1 + 1 + 1 \/ q = p + 1 + 1 + 1 + 1 + 1 \/
                   q = p + 1 + 1 + 1 + 1 + 1 + 1 \/
                   q = p + 1 + 1 + 1 + 1 + 1 + 1 + 1) by lia.
      intuition auto.
    + right. apply Hin. lia.
Qed.
End MurmurLoop.

Lemma MurmurHash64_loop_reads lo hi : forall fuel (k : nat) p hash,
  lo <= p -> p + 8 * Z.of_nat k <= hi ->
  reads_in lo hi (MurmurHash64_loop fuel p (p + 8 * Z.of_nat k) hash).
Proof.
  induction fuel as [| fuel IH]; intros k p hash Hlo Hhi;
    (destruct k as [| k];
     [ replace (p + 8 * Z.of_nat 0) with p by lia;
       intros m; unfold trace; rewrite MurmurHash64_loop_done; constructor |]).
  - intros m. unfold trace. rewrite MurmurHash64_loop_out_of_fuel by lia.
    constructor.
  - rewrite MurmurHash64_loop_step by lia.
    apply reads_in_bind.
    + apply (reads_in_load_le lo hi 8); simpl; lia.
    + intros w.
      replace (p + 8 * Z.of_nat (S k)) with (p + 8 + 8 * Z.of_nat k) by lia.
      apply IH; lia.
Qed.

Lemma agree_sub lo hi lo' hi' m1 m2 :
  agree lo hi m1 m2 -> lo <= lo' -> hi' <= hi -> agree lo' hi' m1 m2.
Proof. intros Hag Hlo Hhi q Hq. apply Hag. lia. Qed.

(** For a length below 2^31 the conversion to [int] changes nothing. *)
Lemma MurmurHash64_aligned len :
  0 <= len < 2 ^ 31 ->
  to_int32 (Z.land len (wrap64 (Z.lnot 7))) = 8 * Z.of_nat (Z.to_nat (len / 8)).
Proof.
  intros Hlen. rewrite land_not7 by lia.
  rewrite to_int32_small by dlia. rewrite Z2Nat.id by dlia. reflexivity.
Qed.

Lemma MurmurHash64_value cs fuel buf len m :
  value (MurmurHash64 cs fuel buf len) m =
  let end_ := buf + to_int32 (Z.land len (wrap64 (Z.lnot 7))) in
  option_map
    (fun hash =>
       ShiftMix (ShiftMix (value (MurmurHash64_tail cs end_ len hash) m)
                 *% Murmur_mul))
    (value (MurmurHash64_loop fuel buf end_ (len *% Murmur_mul)) m).
Proof.
  unfold MurmurHash64. cbv zeta. rewrite value_bind.
  destruct (value (MurmurHash64_loop _ _ _ _) m) as [hash |]; [| reflexivity].
  rewrite value_bind. reflexivity.
Qed.

Lemma MurmurHash64_tail_reads cs lo hi e len hash :
  0 <= len < 2 ^ 31 -> lo <= e -> e + len mod 8 <= hi ->
  reads_in lo hi (MurmurHash64_tail cs e len hash).
Proof.
  intros Hlen Hlo Hhi. unfold MurmurHash64_tail.
  rewrite land_7 by lia. rewrite to_int32_small by dlia.
  destruct (Z.eqb_spec (len mod 8) 0) as [E | NE]; cbn [negb].
  - apply reads_in_ret.
  - apply reads_in_bind.
    + apply reads_in_LoadBytes; dlia.
    + intros d. apply reads_in_ret.
Qed.

(** X8: for 0 <= len < 2^31 every address [MurmurHash64] reads lies in
    [[buf, buf + len)], for any number of loop passes. *)
Theorem MurmurHash64_reads_within_buffer cs fuel buf len :
  0 <= len < 2 ^ 31 ->
  reads_in buf (buf + len) (MurmurHash64 cs fuel buf len).
Proof.
  intros Hlen m. unfold MurmurHash64. cbv zeta.
  rewrite MurmurHash64_aligned by exact Hlen.
  rewrite trace_bind. apply Forall_app. split.
  - apply MurmurHash64_loop_reads; [lia |]. rewrite Z2Nat.id; dlia.
  - destruct (value (MurmurHash64_loop _ _ _ _) m) as [hash |];
      [| constructor].
    apply reads_in_bind.
    + apply MurmurHash64_tail_reads; [exact Hlen | | ]; rewrite Z2Nat.id; dlia.
    + intros h. apply reads_in_ret.
Qed.

Lemma MurmurHash64_reads_within_buffer_witness :
  0 <= 19 < 2 ^ 31 /\ reads_in 100 (100 + 19) (MurmurHash64 true 2 100 19).
Proof.
  split; [lia |].
  apply (MurmurHash64_reads_within_buffer true 2 100 19). lia.
Defined.

(** X9: for 0 <= len < 2^31 [MurmurHash64] makes exactly floor(len/8)
    passes through its loop and returns one unsigned 64-bit value:
    floor(len/8) passes are enough and fewer are not. *)
Theorem MurmurHash64_total cs m buf len :
  0 <= len < 2 ^ 31 ->
  exists h,
    0 <= h < 2 ^ 64 /\
    (forall fuel, (Z.to_nat (len / 8) <= fuel)%nat ->
       value (MurmurHash64 cs fuel buf len) m = Some h) /\
    (forall fuel, (fuel < Z.to_nat (len / 8))%nat ->
       value (MurmurHash64 cs fuel buf len) m = None).
Proof.
  intros Hlen.
  destruct (MurmurHash64_loop_enough m (Z.to_nat (len / 8)) buf
              (len *% Murmur_mul) (mul64_range _ _)) as (h0 & _ & Hv).
  pose proof (MurmurHash64_aligned len Hlen) as Hal.
  exists (ShiftMix (ShiftMix (value
            (MurmurHash64_tail cs (buf + 8 * Z.of_nat (Z.to_nat (len / 8))) len h0) m)
          *% Murmur_mul)).
  split; [apply ShiftMix_range, mul64_range |].
  split; intros fuel Hfuel; rewrite MurmurHash64_value; cbv zeta; rewrite Hal.
  - rewrite Hv by exact Hfuel. reflexivity.
  - rewrite MurmurHash64_loop_short by exact Hfuel. reflexivity.
Qed.

Lemma MurmurHash64_total_witness :
  0 <= 19 < 2 ^ 31 /\
  exists h, value (MurmurHash64 true 2 0 19) (mem_of [x61; x62; x63]) = Some h.
Proof.
  split; [lia |].
  destruct (MurmurHash64_total true (mem_of [x61; x62; x63]) 0 19)
    as (h & _ & Hv & _); [lia |].
  exists h. apply Hv. vm_compute. lia.
Defined.

(** X10: for 2^31 <= len < 2^32 the conversion of [len & ~0x7] to the
    [int] [len_aligned] gives a negative value, [end] lies before [buf]
    and the test [p != end] never fails: no number of passes makes
    [MurmurHash64] return, and once more than floor(len/8) passes are
    made it has read the byte at [buf + len], past the buffer. *)
Theorem MurmurHash64_int_truncation cs m buf len fuel :
  2 ^ 31 <= len < 2 ^ 32 ->
  value (MurmurHash64 cs fuel buf len) m = None /\
  ((Z.to_nat (len / 8) < fuel)%nat ->
   In (buf + len) (trace (MurmurHash64 cs fuel buf len) m)).
Proof.
  intros Hlen.
  assert (Hal : to_int32 (Z.land len (wrap64 (Z.lnot 7))) = 8 * (len / 8) - 2 ^ 32).
  { rewrite land_not7 by lia. unfold to_int32. cbv zeta.
    rewrite Z.mod_small by dlia.
    destruct (Z.ltb_spec (8 * (len / 8)) (2 ^ 31)); [dlia | reflexivity]. }
  destruct (MurmurHash64_loop_runaway m (buf + (8 * (len / 8) - 2 ^ 32)) fuel buf
              (len *% Murmur_mul)) as [Hv Hin]; [dlia |].
  split.
  - rewrite MurmurHash64_value. cbv zeta. rewrite Hal, Hv. reflexivity.
  - intros Hfuel. unfold MurmurHash64. cbv zeta. rewrite Hal.
    rewrite trace_bind. apply in_or_app. left. apply Hin.
    assert (len / 8 + 1 <= Z.of_nat fuel) by lia. dlia.
Qed.

Lemma MurmurHash64_int_truncation_witness :
  2 ^ 31 <= 2 ^ 31 < 2 ^ 32 /\
  value (MurmurHash64 true 5 0 (2 ^ 31)) zero_mem = None.
Proof.
  assert (H : 2 ^ 31 <= 2 ^ 31 < 2 ^ 32) by lia.
  split; [exact H |].
  exact (proj1 (MurmurHash64_int_truncation true zero_mem 0 (2 ^ 31) 5 H)).
Defined.

(** X11: on the empty input [MurmurHash64] returns 0 and reads nothing,
    whatever the memory holds. *)
Theorem MurmurHash64_empty cs fuel buf m :
  MurmurHash64 cs fuel buf 0 m = (Some 0, []).
Proof.
  unfold MurmurHash64. cbv zeta.
  change (to_int32 (Z.land 0 (wrap64 (Z.lnot 7)))) with 0.
  rewrite Z.add_0_r. unfold bind at 1.
  rewrite MurmurHash64_loop_done. reflexivity.
Qed.

Section MurmurRuns.
Variables m1 m2 : mem.

Lemma MurmurHash64_loop_agree : forall (k : nat) fuel p hash,
  agree p (p + 8 * Z.of_nat k) m1 m2 ->
  value (MurmurHash64_loop fuel p (p + 8 * Z.of_nat k) hash) m1 =
  value (MurmurHash64_loop fuel p (p + 8 * Z.of_nat k) hash) m2.
Proof.
  induction k as [| k IH]; intros fuel p hash Hag.
  - replace (p + 8 * Z.of_nat 0) with p by lia.
    unfold value. rewrite !MurmurHash64_loop_done. reflexivity.
  - destruct fuel as [| fuel].
    + unfold value. rewrite !MurmurHash64_loop_out_of_fuel by lia. reflexivity.
    + rewrite MurmurHash64_loop_step by lia. rewrite !value_bind.
      unfold LittleEndian_Load64.
      rewrite (load_le_agree p (p + 8 * Z.of_nat (S k)) m1 m2 8 p Hag)
        by (simpl; lia).
      replace (p + 8 * Z.of_nat (S k)) with (p + 8 + 8 * Z.of_nat k) by lia.
      apply IH. apply (agree_sub p (p + 8 * Z.of_nat (S k))); [exact Hag | lia | lia].
Qed.

Lemma MurmurHash64_tail_agree cs e len hash :
  0 <= len < 2 ^ 31 -> agree e (e + len mod 8) m1 m2 ->
  value (MurmurHash64_tail cs e len hash) m1 =
  value (MurmurHash64_tail cs e len hash) m2.
Proof.
  intros Hlen Hag. unfold MurmurHash64_tail.
  rewrite land_7 by lia. rewrite to_int32_small by dlia.
  destruct (Z.eqb_spec (len mod 8) 0) as [E | NE]; cbn [negb]; [reflexivity |].
  rewrite !value_bind, !value_ret. do 2 f_equal.
  unfold LoadBytes. cbv zeta.
  replace (len mod 8 - 1) with (Z.of_nat (Z.to_nat (len mod 8 - 1))) by dlia.
  apply LoadBytes_loop_same_bytes. intros i Hi. apply Hag.
  rewrite Z2Nat.id in Hi by dlia. lia.
Qed.

(** X12: for 0 <= len < 2^31 the value of [MurmurHash64] depends on the
    memory only through the [len] bytes of the buffer. *)
Theorem MurmurHash64_depends_on_buffer cs fuel buf len :
  0 <= len < 2 ^ 31 ->
  agree buf (buf + len) m1 m2 ->
  value (MurmurHash64 cs fuel buf len) m1 =
  value (MurmurHash64 cs fuel buf len) m2.
Proof.
  intros Hlen Hag. rewrite !MurmurHash64_value. cbv zeta.
  rewrite MurmurHash64_aligned by exact Hlen.
  assert (Hk : 8 * Z.of_nat (Z.to_nat (len / 8)) = 8 * (len / 8))
    by (rewrite Z2Nat.id; dlia).
  rewrite MurmurHash64_loop_agree
    by (apply (agree_sub buf (buf + len)); [exact Hag | lia | dlia]).
  destruct (value (MurmurHash64_loop _ _ _ _) m2) as [hash |]; [| reflexivity].
  cbn [option_map].
  rewrite MurmurHash64_tail_agree;
    [reflexivity | exact Hlen
    | apply (agree_sub buf (buf + len)); [exact Hag | dlia | dlia]].
Qed.

(** X13: where [char] is signed, a byte of 0x80 or more among the bytes
    left after the last whole word hides the bytes after it: two buffers
    of the same length below 2^31 that hold the same bytes up to and
    including that byte have the same [MurmurHash64]. *)
Theorem MurmurHash64_signed_tail_collision fuel buf len j :
  0 <= len < 2 ^ 31 ->
  0 <= j < len mod 8 ->
  128 <= byte_val (m1 (buf + 8 * (len / 8) + j)) ->
  agree buf (buf + 8 * (len / 8) + j + 1) m1 m2 ->
  value (MurmurHash64 true fuel buf len) m1 =
  value (MurmurHash64 true fuel buf len) m2.
Proof.
  intros Hlen Hj Hneg Hag. rewrite !MurmurHash64_value. cbv zeta.
  rewrite MurmurHash64_aligned by exact Hlen.
  assert (Hk : 8 * Z.of_nat (Z.to_nat (len / 8)) = 8 * (len / 8))
    by (rewrite Z2Nat.id; dlia).
  rewrite MurmurHash64_loop_agree
    by (apply (agree_sub buf (buf + 8 * (len / 8) + j + 1));
        [exact Hag | lia | dlia]).
  destruct (value (MurmurHash64_loop _ _ _ _) m2) as [hash |]; [| reflexivity].
  cbn [option_map].
  apply (f_equal (fun t => Some (ShiftMix (ShiftMix t *% Murmur_mul)))).
  unfold MurmurHash64_tail.
  rewrite land_7 by lia. rewrite to_int32_small by dlia.
  destruct (Z.eqb_spec (len mod 8) 0) as [E | NE]; [lia |]. cbn [negb].
  rewrite !value_bind, !value_ret.
  apply (f_equal (fun d => (hash ^% d) *% Murmur_mul)).
  unfold LoadBytes. cbv zeta. rewrite Hk.
  replace (len mod 8 - 1) with (Z.of_nat (Z.to_nat (len mod 8 - 1))) by dlia.
  apply (LoadBytes_loop_erased m1 m2 (buf + 8 * (len / 8)) (Z.to_nat j)).
  - rewrite Z2Nat.id by lia. exact Hneg.
  - intros i Hi. apply Hag. rewrite Z2Nat.id in Hi by lia. dlia.
  - dlia.
Qed.
End MurmurRuns.

Lemma agree_prefix (bs1 bs2 : list byte) (n : nat) :
  firstn n bs1 = firstn n bs2 -> agree 0 (Z.of_nat n) (mem_of bs1) (mem_of bs2).
Proof.
  intros E q Hq. unfold mem_of.
  destruct (Z.ltb_spec q 0); [reflexivity |].
  assert (HL : length (firstn n bs1) = length (firstn n bs2))
    by (rewrite E; reflexivity).
  rewrite !length_firstn in HL.
  rewrite <- (firstn_skipn n bs1), <- (firstn_skipn n bs2), E.
  destruct (Nat.lt_ge_cases (Z.to_nat q) (length (firstn n bs2))) as [Hin | Hout].
  - rewrite !app_nth1 by exact Hin. reflexivity.
  - rewrite !app_nth2 by exact Hout. rewrite length_firstn in Hout.
    rewrite !nth_overflow;
      [reflexivity | rewrite length_skipn; lia | rewrite length_skipn; lia].
Qed.

Lemma MurmurHash64_depends_on_buffer_witness :
  0 <= 3 < 2 ^ 31 /\
  agree 0 (0 + 3) (mem_of [x61; x62; x63]) (mem_of [x61; x62; x63; x64]) /\
  value (MurmurHash64 true 1 0 3) (mem_of [x61; x62; x63]) =
  value (MurmurHash64 true 1 0 3) (mem_of [x61; x62; x63; x64]).
Proof.
  split; [lia |].
  split; [apply (agree_prefix _ _ 3); reflexivity |].
  apply MurmurHash64_depends_on_buffer;
    [lia | apply (agree_prefix _ _ 3); reflexivity].
Defined.

Lemma MurmurHash64_signed_tail_collision_witness :
  0 <= 3 < 2 ^ 31 /\ 0 <= 1 < 3 mod 8 /\
  128 <= byte_val (mem_of [x61; x80; x63] (0 + 8 * (3 / 8) + 1)) /\
  agree 0 (0 + 8 * (3 / 8) + 1 + 1) (mem_of [x61; x80; x63]) (mem_of [x61; x80; x64]) /\
  value (MurmurHash64 true 1 0 3) (mem_of [x61; x80; x63]) =
  value (MurmurHash64 true 1 0 3) (mem_of [x61; x80; x64]).
Proof.
  split; [lia |].
  split; [vm_compute; split; [discriminate | reflexivity] |].
  split; [vm_compute; discriminate |].
  split; [apply (agree_prefix _ _ 2); reflexivity |].
  apply (MurmurHash64_signed_tail_collision _ _ 1 0 3 1);
    [ lia
    | vm_compute; split; [discriminate | reflexivity]
    | vm_compute; discriminate
    | apply (agree_prefix _ _ 2); reflexivity ].
Defined.

(** * CityHash64 as a function of the bytes *)

Section SameBytes.
Variables (s1 : Z) (m1 : mem) (s2 : Z) (m2 : mem) (len : Z).
Hypothesis Hsame : same_bytes s1 m1 s2 m2 len.

Lemma simR_ret {A} (R : A -> A -> Prop) a1 a2 :
  R a1 a2 -> simR m1 m2 R (ret a1) (ret a2).
Proof. intros H. exact H. Qed.

Lemma simR_bind {A B} (R : B -> B -> Prop) (c1 c2 : M A) (f1 f2 : A -> M B) :
  simR m1 m2 eq c1 c2 -> (forall a, simR m1 m2 R (f1 a) (f2 a)) ->
  simR m1 m2 R (bind c1 f1) (bind c2 f2).
Proof.
  unfold simR. intros Hc Hf. rewrite !value_bind, Hc. apply Hf.
Qed.

Lemma simR_fmap {A B} (g : A -> B) (c1 c2 : M A) :
  simR m1 m2 eq c1 c2 -> simR m1 m2 eq (fmap g c1) (fmap g c2).
Proof. unfold simR. intros Hc. rewrite !value_fmap, Hc. reflexivity. Qed.

Lemma simR_read_u8 p1 p2 :
  p1 - s1 = p2 - s2 -> 0 <= p1 - s1 < len -> simR m1 m2 eq (read_u8 p1) (read_u8 p2).
Proof.
  intros Hp Hr. unfold simR, value, read_u8. cbn [fst].
  replace p1 with (s1 + (p1 - s1)) by lia.
  replace p2 with (s2 + (p1 - s1)) by lia.
  rewrite Hsame by lia. reflexivity.
Qed.

Lemma simR_load_le n : forall p1 p2,
  p1 - s1 = p2 - s2 -> 0 <= p1 - s1 -> p1 - s1 + Z.of_nat n <= len ->
  simR m1 m2 eq (load_le n p1) (load_le n p2).
Proof.
  induction n as [| n IH]; intros p1 p2 Hp Hlo Hhi;
    [apply simR_ret; reflexivity |].
  cbn [load_le]. apply simR_bind; [apply simR_read_u8; lia |].
  intros b. apply simR_bind; [apply IH; lia |].
  intros r. apply simR_ret. reflexivity.
Qed.

Lemma simR_Fetch64 p1 p2 :
  p1 - s1 = p2 - s2 -> 0 <= p1 - s1 -> p1 - s1 + 8 <= len ->
  simR m1 m2 eq (Fetch64 p1) (Fetch64 p2).
Proof.
  intros Hp Hlo Hhi. apply simR_fmap. apply (simR_load_le 8); simpl; lia.
Qed.

Lemma simR_Fetch32 p1 p2 :
  p1 - s1 = p2 - s2 -> 0 <= p1 - s1 -> p1 - s1 + 4 <= len ->
  simR m1 m2 eq (Fetch32 p1) (Fetch32 p2).
Proof.
  intros Hp Hlo Hhi. apply simR_fmap. apply (simR_load_le 4); simpl; lia.
Qed.

Lemma simR_Weak p1 p2 a b :
  p1 - s1 = p2 - s2 -> 0 <= p1 - s1 -> p1 - s1 + 32 <= len ->
  simR m1 m2 eq (WeakHashLen32WithSeeds_at p1 a b) (WeakHashLen32WithSeeds_at p2 a b).
Proof.
  intros Hp Hlo Hhi. unfold WeakHashLen32WithSeeds_at.
  repeat (apply simR_bind; [apply simR_Fetch64; lia | intros ?]).
  apply simR_ret. reflexivity.
Qed.
End SameBytes.

Ltac sim_step H :=
  lazymatch goal with
  | |- simR _ _ _ (bind _ _) (bind _ _) => apply simR_bind; [| intros ?]
  | |- simR _ _ _ (Fetch64 _) (Fetch64 _) => apply (simR_Fetch64 _ _ _ _ _ H); lia
  | |- simR _ _ _ (Fetch32 _) (Fetch32 _) => apply (simR_Fetch32 _ _ _ _ _ H); lia
  | |- simR _ _ _ (read_u8 _) (read_u8 _) => apply (simR_read_u8 _ _ _ _ _ H); lia
  | |- simR _ _ _ (WeakHashLen32WithSeeds_at _ _ _) (WeakHashLen32WithSeeds_at _ _ _) =>
      apply (simR_Weak _ _ _ _ _ H); lia
  | |- simR _ _ _ (ret _) (ret _) => apply simR_ret
  end.
Ltac sim H := cbv zeta; repeat sim_step H.

Section SameBytesTiers.
Variables (s1 : Z) (m1 : mem) (s2 : Z) (m2 : mem) (len : Z).
Hypothesis Hsame : same_bytes s1 m1 s2 m2 len.

Lemma HashLen0to16_same :
  0 <= len -> simR m1 m2 eq (HashLen0to16 s1 len) (HashLen0to16 s2 len).
Proof.
  intros Hlen. unfold HashLen0to16.
  destruct (Z.leb_spec 8 len); [sim Hsame; reflexivity |].
  destruct (Z.leb_spec 4 len); [sim Hsame; reflexivity |].
  destruct (Z.ltb_spec 0 len); [| apply simR_ret; reflexivity].
  assert (Hmid : 0 <= len >>% 1 < len).
  { unfold shr64. rewrite Z.shiftr_div_pow2 by lia. change (2 ^ 1) with 2. dlia. }
  sim Hsame. reflexivity.
Qed.

Lemma HashLen17to32_same :
  16 <= len -> simR m1 m2 eq (HashLen17to32 s1 len) (HashLen17to32 s2 len).
Proof. intros Hlen. unfold HashLen17to32. sim Hsame. reflexivity. Qed.

Lemma HashLen33to64_same :
  32 <= len -> simR m1 m2 eq (HashLen33to64 s1 len) (HashLen33to64 s2 len).
Proof. intros Hlen. unfold HashLen33to64. sim Hsame. reflexivity. Qed.

Lemma seed_same :
  64 <= len ->
  simR m1 m2 (fun a b => b = shift_state (s2 - s1) a)
    (CityHash64_seed s1 len) (CityHash64_seed s2 len).
Proof.
  intros Hlen. unfold CityHash64_seed. sim Hsame.
  unfold shift_state. cbn [st_s st_len st_x st_y st_z st_v st_w].
  f_equal. lia.
Qed.

Lemma chunk_body_same st :
  0 <= st_s st - s1 -> st_s st - s1 + 64 <= len ->
  simR m1 m2 (fun a b => b = shift_state (s2 - s1) a)
    (chunk_body st) (chunk_body (shift_state (s2 - s1) st)).
Proof.
  destruct st as [s n x y z v w]. cbn [st_s]. intros Hlo Hhi.
  unfold shift_state, chunk_body. cbn [st_s st_len st_x st_y st_z st_v st_w].
  sim Hsame.
  cbn [st_s st_len st_x st_y st_z st_v st_w]. f_equal. lia.
Qed.

Lemma chunk_loop_same : forall fuel (n : nat) st,
  st_len st = 64 * Z.of_nat (S n) -> st_len st < 2 ^ 64 ->
  0 <= st_s st - s1 -> st_s st - s1 + st_len st <= len ->
  value (chunk_loop fuel (shift_state (s2 - s1) st)) m2 =
  option_map (shift_state (s2 - s1)) (value (chunk_loop fuel st) m1).
Proof.
  induction fuel as [| fuel IH]; intros n st Hlen Hlt Hlo Hhi; [reflexivity |].
  rewrite !chunk_loop_unfold. cbv zeta.
  pose proof (chunk_body_same st ltac:(lia) ltac:(lia)) as Hbody.
  unfold simR in Hbody. rewrite Hbody.
  pose proof (chunk_body_counter m1 st n Hlen Hlt) as Hnext.
  pose proof (chunk_body_s st m1) as Hs.
  set (st' := value (chunk_body st) m1) in *.
  change (st_len (shift_state (s2 - s1) st')) with (st_len st').
  destruct (Z.eqb_spec (st_len st') 0) as [E | NE]; [reflexivity |].
  destruct n as [| n]; [lia |].
  apply (IH n); lia.
Qed.

Lemma CityHash64_final_shift d st :
  CityHash64_final (shift_state d st) = CityHash64_final st.
Proof.
  destruct st. unfold shift_state, CityHash64_final.
  cbn [st_s st_len st_x st_y st_z st_v st_w]. reflexivity.
Qed.

Lemma CityHash64_large_same fuel :
  64 < len < 2 ^ 64 ->
  simR m1 m2 eq (CityHash64_large fuel s1 len) (CityHash64_large fuel s2 len).
Proof.
  intros Hlen. unfold simR, CityHash64_large.
  rewrite !value_bind, !value_fmap.
  pose proof (seed_same ltac:(lia)) as Hseed. unfold simR in Hseed.
  rewrite Hseed.
  pose proof (seed_len s1 len m1 ltac:(lia)) as Hst.
  pose proof (seed_s s1 len m1) as Hs.
  rewrite (chunk_loop_same fuel (Z.to_nat ((len - 1) / 64 - 1)))
    by (rewrite ?Nat2Z.inj_succ, ?Z2Nat.id; dlia).
  destruct (value (chunk_loop fuel _) m1) as [st |]; [| reflexivity].
  cbn [option_map]. rewrite CityHash64_final_shift. reflexivity.
Qed.
End SameBytesTiers.

(** X14: the value of [CityHash64] is a function of the [len] bytes of
    the buffer alone: it is the same wherever the buffer lies and
    whatever the memory holds outside it. *)
Theorem CityHash64_depends_on_bytes fuel s1 m1 s2 m2 len :
  0 <= len < 2 ^ 64 ->
  same_bytes s1 m1 s2 m2 len ->
  value (CityHash64 fuel s1 len) m1 = value (CityHash64 fuel s2 len) m2.
Proof.
  intros Hlen Hsame. unfold CityHash64.
  destruct (Z.leb_spec len 32).
  - destruct (Z.leb_spec len 16); rewrite !value_fmap; f_equal.
    + apply (HashLen0to16_same _ _ _ _ _ Hsame). lia.
    + apply (HashLen17to32_same _ _ _ _ _ Hsame). lia.
  - destruct (Z.leb_spec len 64).
    + rewrite !value_fmap. f_equal.
      apply (HashLen33to64_same _ _ _ _ _ Hsame). lia.
    + apply (CityHash64_large_same _ _ _ _ _ Hsame). lia.
Qed.

Lemma same_bytes_mem_of (bs : list byte) s m :
  (forall i, (i < length bs)%nat -> m (s + Z.of_nat i) = nth i bs x00) ->
  same_bytes s m 0 (mem_of bs) (Z.of_nat (length bs)).
Proof.
  intros H i Hi. unfold mem_of.
  destruct (Z.ltb_spec (0 + i) 0); [lia |].
  replace (0 + i) with i by lia.
  rewrite <- (H (Z.to_nat i)) by lia. f_equal. lia.
Qed.

Lemma CityHash64_depends_on_bytes_witness :
  0 <= 3 < 2 ^ 64 /\
  value (CityHash64 0 1 3) (mem_of [xff; x61; x62; x63; xff]) =
  value (CityHash64 0 0 3) (mem_of [x61; x62; x63]).
Proof.
  split; [lia |].
  apply CityHash64_depends_on_bytes; [lia |].
  apply (same_bytes_mem_of [x61; x62; x63]).
  intros i Hi. cbn in Hi.
  destruct i as [| [| [| i]]]; try reflexivity. lia.
Defined.

(** * Every byte is read *)


Section CoversTiers.
Variable m : mem.
Variables s len q : Z.
Hypothesis Hq : s <= q < s + len.

Lemma HashLen0to16_covers :
  len <= 16 -> In q (trace (HashLen0to16 s len) m).
Proof.
  intros Hlen. unfold HashLen0to16.
  destruct (Z.leb_spec 8 len); [cut_at q (s + 8); find_read |].
  destruct (Z.leb_spec 4 len); [cut_at q (s + 4); find_read |].
  destruct (Z.ltb_spec 0 len); [| lia].
  unfold shr64. rewrite Z.shiftr_div_pow2 by lia. change (2 ^ 1) with 2.
  destruct (Z.eq_dec q s); [find_read |].
  destruct (Z.eq_dec q (s + (len - 1))); find_read.
Qed.

Lemma HashLen17to32_covers :
  16 <= len <= 32 -> In q (trace (HashLen17to32 s len) m).
Proof.
  intros Hlen. unfold HashLen17to32.
  cut_at q (s + 8). cut_at q (s + 16). cut_at q (s + len - 8). find_read.
Qed.

Lemma HashLen33to64_covers :
  32 <= len <= 64 -> In q (trace (HashLen33to64 s len) m).
Proof.
  intros Hlen. unfold HashLen33to64.
  cut_at q (s + 8). cut_at q (s + 16). cut_at q (s + 24). cut_at q (s + 32).
  cut_at q (s + len - 24). cut_at q (s + len - 16). cut_at q (s + len - 8).
  find_read.
Qed.

Lemma seed_covers :
  s + len - 64 <= q -> In q (trace (CityHash64_seed s len) m).
Proof.
  intros Hlo. unfold CityHash64_seed.
  cut_at q (s + len - 32). find_read.
Qed.
End CoversTiers.

Lemma chunk_loop_covers m q : forall fuel (n : nat) st,
  st_len st = 64 * Z.of_nat (S n) -> st_len st < 2 ^ 64 -> (S n <= fuel)%nat ->
  st_s st <= q < st_s st + st_len st ->
  In q (trace (chunk_loop fuel st) m).
Proof.
  induction fuel as [| fuel IH]; intros n st Hlen Hlt Hfuel Hq; [lia |].
  cbn [chunk_loop]. rewrite trace_bind. apply in_or_app.
  destruct (Z.lt_ge_cases q (st_s st + 64)) as [Hnear | Hfar].
  - left. apply chunk_body_covers. lia.
  - right.
    pose proof (chunk_body_counter m st n Hlen Hlt) as Hnext.
    pose proof (chunk_body_s st m) as Hs.
    destruct n as [| n]; [lia |].
    destruct (Z.eqb_spec (st_len (value (chunk_body st) m)) 0) as [E | NE];
      [lia |].
    apply (IH n); lia.
Qed.

(** X15: every byte of the buffer is read: given floor((len-1)/64) loop
    passes, each address of [[s, s + len)] occurs among the reads of
    [CityHash64 s len]. *)
Theorem CityHash64_reads_every_byte fuel s len m q :
  0 <= len < 2 ^ 64 ->
  (Z.to_nat ((len - 1) / 64) <= fuel)%nat ->
  s <= q < s + len ->
  In q (trace (CityHash64 fuel s len) m).
Proof.
  intros Hlen Hfuel Hq. unfold CityHash64.
  destruct (Z.leb_spec len 32).
  - destruct (Z.leb_spec len 16); apply In_trace_fmap.
    + apply HashLen0to16_covers; lia.
    + apply HashLen17to32_covers; lia.
  - destruct (Z.leb_spec len 64).
    + apply In_trace_fmap, HashLen33to64_covers; lia.
    + unfold CityHash64_large. rewrite trace_bind, trace_fmap.
      apply in_or_app.
      destruct (Z.lt_ge_cases q (s + len - 64)) as [Hfront | Hback].
      * right.
        pose proof (seed_len s len m ltac:(lia)) as Hst.
        pose proof (seed_s s len m) as Hs.
        apply (chunk_loop_covers m q fuel (Z.to_nat ((len - 1) / 64 - 1)));
          rewrite ?Nat2Z.inj_succ, ?Z2Nat.id; dlia.
      * left. apply seed_covers; lia.
Qed.

Lemma CityHash64_reads_every_byte_witness :
  0 <= 200 < 2 ^ 64 /\ (Z.to_nat ((200 - 1) / 64) <= 3)%nat /\
  1000 <= 1100 < 1000 + 200 /\
  In 1100 (trace (CityHash64 3 1000 200) zero_mem).
Proof.
  split; [lia |]. split; [vm_compute; lia |]. split; [lia |].
  apply CityHash64_reads_every_byte; [lia | vm_compute; lia | lia].
Defined.

(** * Where Rotate is defined *)

(** X16: the test [shift == 0] is the only guard of [Rotate]: its shifts
    are defined exactly for 0 <= shift < 64; for a negative [shift] and
    for 64 and more (a rotation by 64 included) one of them is not. *)
Theorem Rotate_defined_iff v s :
  Rotate_checked v s <> None <-> 0 <= s < 64.
Proof.
  unfold Rotate_checked, shr64_checked, shl64_checked.
  destruct (Z.eqb_spec s 0) as [-> | NE]; [split; [lia | discriminate] |].
  destruct (Z.leb_spec 0 s), (Z.ltb_spec s 64),
           (Z.leb_spec 0 (64 - s)), (Z.ltb_spec (64 - s) 64);
    cbn [andb]; split; intros Hd; try lia; try discriminate;
    try (exfalso; apply Hd; reflexivity).
Qed.

(** * MurmurHash64 reads each byte once *)

Lemma map_seq_offset {A} : forall n (f : nat -> A) a,
  map f (seq a n) = map (fun i => f (a + i)%nat) (seq 0 n).
Proof.
  induction n as [| n IH]; intros f a; [reflexivity |].
  cbn [seq map]. rewrite Nat.add_0_r. f_equal.
  rewrite (IH f (S a)), (IH (fun i => f (a + i)%nat) 1%nat).
  apply map_ext. intros i. f_equal. lia.
Qed.

Lemma load_le_trace m n : forall p,
  trace (load_le n p) m = map (fun i => p + Z.of_nat i) (seq 0 n).
Proof.
  induction n as [| n IH]; intros p; [reflexivity |].
  cbn [load_le]. rewrite !trace_bind, trace_ret, app_nil_r, IH.
  cbn [seq map]. rewrite (map_seq_offset n _ 1).
  change (trace (read_u8 p) m) with [p]. cbn [app].
  f_equal; [lia |]. apply map_ext. intros i. lia.
Qed.

Lemma MurmurHash64_loop_trace m : forall (k : nat) fuel p hash,
  (k <= fuel)%nat ->
  trace (MurmurHash64_loop fuel p (p + 8 * Z.of_nat k) hash) m =
  map (fun i => p + Z.of_nat i) (seq 0 (8 * k)).
Proof.
  induction k as [| k IH]; intros fuel p hash Hfuel.
  - replace (p + 8 * Z.of_nat 0) with p by lia.
    unfold trace. rewrite MurmurHash64_loop_done. reflexivity.
  - destruct fuel as [| fuel]; [lia |].
    rewrite MurmurHash64_loop_step by lia. rewrite trace_bind.
    unfold LittleEndian_Load64. rewrite load_le_trace.
    replace (p + 8 * Z.of_nat (S k)) with (p + 8 + 8 * Z.of_nat k) by lia.
    rewrite IH by lia.
    replace (8 * S k)%nat with (8 + 8 * k)%nat by lia.
    rewrite seq_app, map_app. f_equal.
    rewrite (map_seq_offset (8 * k) _ (0 + 8)).
    apply map_ext. intros i. lia.
Qed.

(** X17: for 0 <= len < 2^31, given floor(len/8) loop passes,
    [MurmurHash64] reads the whole words of the buffer in ascending order
    and then the bytes left in descending order: each address of
    [[buf, buf + len)] is read once and no other address is read. *)
Theorem MurmurHash64_reads_each_byte_once cs fuel buf len m :
  0 <= len < 2 ^ 31 ->
  (Z.to_nat (len / 8) <= fuel)%nat ->
  trace (MurmurHash64 cs fuel buf len) m =
    map (fun i => buf + Z.of_nat i) (seq 0 (8 * Z.to_nat (len / 8))) ++
    rev (map (fun i => buf + 8 * (len / 8) + Z.of_nat i)
           (seq 0 (Z.to_nat (len mod 8)))) /\
  Permutation (trace (MurmurHash64 cs fuel buf len) m)
    (map (fun i => buf + Z.of_nat i) (seq 0 (Z.to_nat len))).
Proof.
  intros Hlen Hfuel.
  assert (Hk : 8 * Z.of_nat (Z.to_nat (len / 8)) = 8 * (len / 8))
    by (rewrite Z2Nat.id; dlia).
  assert (Htrace : trace (MurmurHash64 cs fuel buf len) m =
    map (fun i => buf + Z.of_nat i) (seq 0 (8 * Z.to_nat (len / 8))) ++
    rev (map (fun i => buf + 8 * (len / 8) + Z.of_nat i)
           (seq 0 (Z.to_nat (len mod 8))))).
  { unfold MurmurHash64. cbv zeta.
    rewrite MurmurHash64_aligned by exact Hlen.
    rewrite trace_bind, MurmurHash64_loop_trace by exact Hfuel. f_equal.
    destruct (MurmurHash64_loop_enough m (Z.to_nat (len / 8)) buf
                (len *% Murmur_mul) (mul64_range _ _)) as (h0 & _ & Hv).
    rewrite (Hv fuel Hfuel).
    rewrite trace_bind, trace_ret, app_nil_r.
    unfold MurmurHash64_tail. rewrite land_7 by lia.
    rewrite to_int32_small by dlia. rewrite Hk.
    destruct (Z.eqb_spec (len mod 8) 0) as [E | NE]; cbn [negb].
    - rewrite E. reflexivity.
    - rewrite trace_bind, trace_ret, app_nil_r.
      apply LoadBytes_trace. dlia. }
  split; [exact Htrace |].
  rewrite Htrace.
  replace (Z.to_nat len)
    with (8 * Z.to_nat (len / 8) + Z.to_nat (len mod 8))%nat by dlia.
  rewrite seq_app, map_app. apply Permutation_app_head.
  rewrite <- Permutation_rev.
  rewrite (map_seq_offset _ _ (0 + 8 * Z.to_nat (len / 8))%nat).
  erewrite map_ext; [reflexivity |].
  intros i. cbv beta. lia.
Qed.

Lemma MurmurHash64_reads_each_byte_once_witness :
  0 <= 11 < 2 ^ 31 /\ (Z.to_nat (11 / 8) <= 1)%nat /\
  trace (MurmurHash64 true 1 100 11) zero_mem =
  [100; 101; 102; 103; 104; 105; 106; 107; 110; 109; 108].
Proof.
  split; [lia |]. split; [vm_compute; lia |].
  apply (MurmurHash64_reads_each_byte_once true 1 100 11 zero_mem);
    [lia | vm_compute; lia].
Defined.
